(** * Sphere mesh generator of dawn/samples (Sphere.cpp, Sphere.h)

    A shallow embedding of [Sphere::create] and of the two helpers it calls,
    followed by the properties of the mesh it returns.

    - C++ [float] is IEEE-754 binary32, every operation rounded to nearest
      even on its own (no fused multiply-add, no wider intermediate), as
      given by the Standard Library's [SpecFloat] at precision 24 and
      exponent bound 128 (no NaN payloads).
    - C++ [int] is a mathematical integer ([Z]); the one place where the
      source can leave the range of [int] is the capacity expression handed
      to [reserve], and [create] answers [None] there (signed overflow has no
      defined behaviour).  An out-of-range read of [grid] is [None] as well.
    - [std::cos], [std::sin], [std::mt19937] and
      [std::uniform_real_distribution<float>] belong to the C++ runtime, not
      to this repository; they are the fields of the class [Platform]. *)

From Stdlib Require Import ZArith Bool Lia SpecFloat.
From stdpp Require Import base tactics option list list_numbers.

Open Scope Z_scope.

(** ** binary32 arithmetic *)

Module F32.

Definition prec : Z := 24.
Definition emax : Z := 128.

Definition float : Type := spec_float.

Definition add : float → float → float := SFadd prec emax.
Definition sub : float → float → float := SFsub prec emax.
Definition mul : float → float → float := SFmul prec emax.
Definition div : float → float → float := SFdiv prec emax.
Definition sqrt : float → float := SFsqrt prec emax.
Definition neg : float → float := SFopp.

(** [x > y] of C++: false as soon as one side is NaN. *)
Definition gt (x y : float) : bool := SFltb y x.

(** [x == y] of C++: the two zeros are equal, NaN equals nothing. *)
Definition eqb (x y : float) : bool := SFeqb x y.

(** [x <= y] of C++ and [std::fabs]. *)
Definition leb (x y : float) : bool := SFleb x y.
Definition abs (x : float) : float := SFabs x.

(** The float nearest to [m * 2^e]; used for the literals of the source. *)
Definition lit (m e : Z) : float := binary_normalize prec emax m e false.

(** [static_cast<float>(n)] for an [int] n. *)
Definition of_int (n : Z) : float := binary_normalize prec emax n 0 false.

Definition zero : float := S754_zero false.          (* 0.0f *)
Definition one : float := lit 1 0.                   (* 1.0f *)
Definition two : float := lit 2 0.                   (* 2.0f *)
Definition half : float := lit 1 (-1).               (* 0.5f *)
Definition neg_half : float := lit (-1) (-1).        (* -0.5f *)
(** [1e-8f], the float nearest to 10^-8: 0x322BCC77. *)
Definition eps : float := S754_finite false 11258999 (-50).
(** [static_cast<float>(M_PI)]: 0x40490FDB. *)
Definition pi : float := S754_finite false 13176795 (-22).

(** Neither NaN nor an infinity. *)
Definition is_finite (x : float) : bool :=
  match x with
  | S754_zero _ | S754_finite _ _ _ => true
  | S754_infinity _ | S754_nan => false
  end.

(** One of the two zeros. *)
Definition is_zero (x : float) : bool :=
  match x with
  | S754_zero _ => true
  | _ => false
  end.

Definition valid (x : float) : bool := valid_binary prec emax x.

End F32.

Arguments F32.add : simpl never.
Arguments F32.sub : simpl never.
Arguments F32.mul : simpl never.
Arguments F32.div : simpl never.
Arguments F32.sqrt : simpl never.
Arguments F32.neg : simpl never.
Arguments F32.gt : simpl never.
Arguments F32.lit : simpl never.
Arguments F32.of_int : simpl never.

Abbreviation float := F32.float.

(** ** What the C++ runtime provides *)

Class Platform := {
  (** state of a [std::mt19937] engine *)
  rng_state : Type;
  (** [std::mt19937 rng(seed)] *)
  mt19937 : Z → rng_state;
  (** [dist(rng)] for [std::uniform_real_distribution<float> dist(-0.5f, 0.5f)]:
      the number drawn and the engine after the draw *)
  dist : rng_state → float * rng_state;
  (** the [float] overloads of [std::cos] and [std::sin] *)
  cosf : float → float;
  sinf : float → float;
}.

(** ** Machine integers *)

Definition INT_MAX : Z := 2147483647.

(** [static_cast<uint16_t>(a)] for an [int] a. *)
Definition to_uint16 (a : Z) : Z := a mod 65536.

(** ** Counted loops *)

Fixpoint for_iter {S : Type} (n : nat) (i : Z) (body : Z → S → S) (s : S) : S :=
  match n with
  | O => s
  | Datatypes.S n' => for_iter n' (i + 1) body (body i s)
  end.

(** [for (int i = lo; i < hi; ++i) body] *)
Definition for_lt {S : Type} (lo hi : Z) (body : Z → S → S) (s : S) : S :=
  for_iter (Z.to_nat (hi - lo)) lo body s.

(** [for (int i = lo; i <= hi; ++i) body] *)
Definition for_le {S : Type} (lo hi : Z) (body : Z → S → S) (s : S) : S :=
  for_lt lo (hi + 1) body s.

(** The same loop for a body that can go wrong. *)
Fixpoint for_iterM {S : Type} (n : nat) (i : Z) (body : Z → S → option S) (s : S)
  : option S :=
  match n with
  | O => Some s
  | Datatypes.S n' => s' ← body i s; for_iterM n' (i + 1) body s'
  end.

Definition for_ltM {S : Type} (lo hi : Z) (body : Z → S → option S) (s : S)
  : option S :=
  for_iterM (Z.to_nat (hi - lo)) lo body s.

(** ** Sphere.h *)

Record SphereMesh := {
  vertices : list float;   (* std::vector<float> *)
  indices : list Z;        (* std::vector<uint16_t> *)
}.

(** ** Sphere.cpp *)

(** [float v[3]] *)
Record vec3 := Vec3 { c0 : float; c1 : float; c2 : float }.

Definition vec3_copy (src : vec3) : vec3 :=
  Vec3 (c0 src) (c1 src) (c2 src).

Definition vec3_normalize (v : vec3) : vec3 :=
  let len :=
    F32.sqrt (F32.add (F32.add (F32.mul (c0 v) (c0 v)) (F32.mul (c1 v) (c1 v)))
                      (F32.mul (c2 v) (c2 v))) in
  if F32.gt len F32.eps
  then Vec3 (F32.div (c0 v) len) (F32.div (c1 v) len) (F32.div (c2 v) len)
  else v.

(** [grid[iy][ix]]; reading outside a vector is undefined, hence [None]. *)
Definition vec_at {A : Type} (l : list A) (i : Z) : option A :=
  if decide (0 ≤ i) then l !! Z.to_nat i else None.

Definition grid_at (grid : list (list Z)) (iy ix : Z) : option Z :=
  row ← vec_at grid iy; vec_at row ix.

Section Create.

Context `{Platform}.

(** The locals of [Sphere::create] that the vertex loops read and write. *)
Record GenState := {
  gs_vertices : list float;
  gs_firstVertex : vec3;
  gs_vertex : vec3;
  gs_normal : vec3;
  gs_index : Z;
  gs_grid : list (list Z);
  gs_rng : rng_state;
  gs_verticesRow : list Z;
}.

(** Lines 59-63: the perturbed point on the sphere, from the number [d]
    drawn by [dist(rng)]. *)
Definition sphere_point (radius randomness d u v : float) : vec3 :=
  let rr :=
    F32.add radius
      (F32.mul (F32.mul (F32.mul d F32.two) randomness) radius) in
  Vec3
    (F32.mul
       (F32.mul (F32.neg rr) (cosf (F32.mul (F32.mul u F32.pi) F32.two)))
       (sinf (F32.mul v F32.pi)))
    (F32.mul rr (cosf (F32.mul v F32.pi)))
    (F32.mul
       (F32.mul rr (sinf (F32.mul (F32.mul u F32.pi) F32.two)))
       (sinf (F32.mul v F32.pi))).

Definition ring_v (heightSegments iy : Z) : float :=
  F32.div (F32.of_int iy) (F32.of_int heightSegments).

Definition column_u (widthSegments ix : Z) : float :=
  F32.div (F32.of_int ix) (F32.of_int widthSegments).

Definition ring_uOffset (widthSegments heightSegments iy : Z) : float :=
  if decide (iy = 0) then F32.div F32.half (F32.of_int widthSegments)
  else if decide (iy = heightSegments)
       then F32.div F32.neg_half (F32.of_int widthSegments)
       else F32.zero.

(** Lines 56-68: which position the column gets. *)
Definition place_vertex (radius randomness : float)
    (widthSegments heightSegments iy ix : Z) (u v : float) (s : GenState)
  : GenState :=
  if decide (ix = widthSegments) then
    {| gs_vertices := gs_vertices s;
       gs_firstVertex := gs_firstVertex s;
       gs_vertex := vec3_copy (gs_firstVertex s);
       gs_normal := gs_normal s;
       gs_index := gs_index s;
       gs_grid := gs_grid s;
       gs_rng := gs_rng s;
       gs_verticesRow := gs_verticesRow s |}
  else if decide (ix = 0 ∨ (iy ≠ 0 ∧ iy ≠ heightSegments)) then
    let '(d, g) := dist (gs_rng s) in
    let p := sphere_point radius randomness d u v in
    {| gs_vertices := gs_vertices s;
       gs_firstVertex :=
         if decide (ix = 0) then vec3_copy p else gs_firstVertex s;
       gs_vertex := p;
       gs_normal := gs_normal s;
       gs_index := gs_index s;
       gs_grid := gs_grid s;
       gs_rng := g;
       gs_verticesRow := gs_verticesRow s |}
  else s.

(** Lines 71-84: the nine floats pushed for one vertex. *)
Definition vertex_record (p n : vec3) (u uOffset v : float) : list float :=
  [ c0 p; c1 p; c2 p; F32.one;
    c0 n; c1 n; c2 n;
    F32.add u uOffset; F32.sub F32.one v ].

(** Lines 54-86: the body of the loop over [ix]. *)
Definition column_body (radius randomness : float)
    (widthSegments heightSegments iy : Z) (v uOffset : float)
    (ix : Z) (s : GenState) : GenState :=
  let u := column_u widthSegments ix in
  let s1 :=
    place_vertex radius randomness widthSegments heightSegments iy ix u v s in
  let n := vec3_normalize (vec3_copy (gs_vertex s1)) in
  {| gs_vertices :=
       gs_vertices s1 ++ vertex_record (gs_vertex s1) n u uOffset v;
     gs_firstVertex := gs_firstVertex s1;
     gs_vertex := gs_vertex s1;
     gs_normal := n;
     gs_index := gs_index s1 + 1;
     gs_grid := gs_grid s1;
     gs_rng := gs_rng s1;
     gs_verticesRow := gs_verticesRow s1 ++ [gs_index s1] |}.

(** Line 42: a fresh [verticesRow] for the ring. *)
Definition new_row (s : GenState) : GenState :=
  {| gs_vertices := gs_vertices s;
     gs_firstVertex := gs_firstVertex s;
     gs_vertex := gs_vertex s;
     gs_normal := gs_normal s;
     gs_index := gs_index s;
     gs_grid := gs_grid s;
     gs_rng := gs_rng s;
     gs_verticesRow := [] |}.

(** Line 90: [grid.push_back(std::move(verticesRow))]. *)
Definition push_row (s : GenState) : GenState :=
  {| gs_vertices := gs_vertices s;
     gs_firstVertex := gs_firstVertex s;
     gs_vertex := gs_vertex s;
     gs_normal := gs_normal s;
     gs_index := gs_index s;
     gs_grid := gs_grid s ++ [gs_verticesRow s];
     gs_rng := gs_rng s;
     gs_verticesRow := [] |}.

(** Lines 42-90: the body of the loop over [iy]. *)
Definition ring_body (radius randomness : float)
    (widthSegments heightSegments : Z) (iy : Z) (s : GenState) : GenState :=
  let v := ring_v heightSegments iy in
  let uOffset := ring_uOffset widthSegments heightSegments iy in
  push_row
    (for_le 0 widthSegments
       (column_body radius randomness widthSegments heightSegments iy v uOffset)
       (new_row s)).

(** Lines 24-38: the locals before the first loop. *)
Definition init_state : GenState :=
  {| gs_vertices := [];
     gs_firstVertex := Vec3 F32.zero F32.zero F32.zero;
     gs_vertex := Vec3 F32.zero F32.zero F32.zero;
     gs_normal := Vec3 F32.zero F32.zero F32.zero;
     gs_index := 0;
     gs_grid := [];
     gs_rng := mt19937 12345;
     gs_verticesRow := [] |}.

(** Lines 41-91. *)
Definition generate_vertices (radius randomness : float)
    (widthSegments heightSegments : Z) : GenState :=
  for_le 0 heightSegments
    (ring_body radius randomness widthSegments heightSegments) init_state.

(** Lines 96-110: the body of the inner index loop.  [cast] is the
    conversion applied to each [int] before it is pushed. *)
Definition quad_body (cast : Z → Z) (grid : list (list Z))
    (heightSegments iy : Z) (ix : Z) (ind : list Z) : option (list Z) :=
  a ← grid_at grid iy (ix + 1);
  b ← grid_at grid iy ix;
  c ← grid_at grid (iy + 1) ix;
  d ← grid_at grid (iy + 1) (ix + 1);
  let ind1 :=
    if decide (iy ≠ 0) then ind ++ [cast a; cast b; cast d] else ind in
  let ind2 :=
    if decide (iy ≠ heightSegments - 1)
    then ind1 ++ [cast b; cast c; cast d] else ind1 in
  Some ind2.

(** Lines 94-112. *)
Definition emit_indices (cast : Z → Z) (grid : list (list Z))
    (widthSegments heightSegments : Z) : option (list Z) :=
  for_ltM 0 heightSegments
    (λ iy, for_ltM 0 widthSegments (quad_body cast grid heightSegments iy))
    [].

Definition generate_indices : list (list Z) → Z → Z → option (list Z) :=
  emit_indices to_uint16.

(** [Sphere::create]. *)
Definition create (radius : float) (widthSegments heightSegments : Z)
    (randomness : float) : option SphereMesh :=
  let widthSegments := Z.max 3 widthSegments in
  let heightSegments := Z.max 2 heightSegments in
  if decide ((widthSegments + 1) * (heightSegments + 1) * 8 ≤ INT_MAX) then
    let s := generate_vertices radius randomness widthSegments heightSegments in
    ind ← generate_indices (gs_grid s) widthSegments heightSegments;
    Some {| vertices := gs_vertices s; indices := ind |}
  else None.

End Create.

(** ** A platform to run the generator on

    A stand-in for the C++ runtime, used where a statement below is
    evaluated on concrete numbers.  Its cosine and sine are the binary32
    values of [cosf] and [sinf] at the angles that a sphere of 4 by 2
    segments asks for (0, pi/2, pi and 3*pi/2 as rounded by the generator);
    at any other finite angle they answer as at 0, and NaN at NaN or an
    infinity.  Its generator walks through eight numbers of [-0.5, 0.5). *)

Module Sample.

Definition same (x y : float) : bool :=
  match x, y with
  | S754_zero a, S754_zero b => Bool.eqb a b
  | S754_infinity a, S754_infinity b => Bool.eqb a b
  | S754_nan, S754_nan => true
  | S754_finite a m e, S754_finite b n f =>
      Bool.eqb a b && Pos.eqb m n && Z.eqb e f
  | _, _ => false
  end.

Definition cos_table (x : float) : float :=
  if same x (S754_finite false 13176795 (-23))
  then S754_finite true 12303662 (-48)             (* cosf(1.57079637f) *)
  else if same x (S754_finite false 13176795 (-22))
  then S754_finite true 8388608 (-23)              (* cosf(3.14159274f) *)
  else if same x (S754_finite false 9882596 (-21))
  then S754_finite false 13426222 (-50)            (* cosf(4.71238899f) *)
  else if F32.is_finite x
  then S754_finite false 8388608 (-23)             (* cosf(0.0f) *)
  else S754_nan.

Definition sin_table (x : float) : float :=
  if same x (S754_finite false 13176795 (-23))
  then S754_finite false 8388608 (-23)             (* sinf(1.57079637f) *)
  else if same x (S754_finite false 13176795 (-22))
  then S754_finite true 12303662 (-47)             (* sinf(3.14159274f) *)
  else if same x (S754_finite false 9882596 (-21))
  then S754_finite true 8388608 (-23)              (* sinf(4.71238899f) *)
  else if F32.is_finite x
  then S754_zero false                             (* sinf(0.0f) *)
  else S754_nan.

Definition draw (g : Z) : float * Z :=
  (F32.lit (g mod 8 - 4) (-3), g + 1).

#[export] Instance platform : Platform :=
  {| rng_state := Z;
     mt19937 := λ seed, seed;
     dist := draw;
     cosf := cos_table;
     sinf := sin_table |}.

End Sample.


(** The generator runs: the 24 indices of a sphere of 4 by 2 segments. *)
Example sample_indices :
  indices <$> create (H := Sample.platform) F32.one 4 2 F32.zero =
  Some [0; 5; 6; 1; 6; 7; 2; 7; 8; 3; 8; 9;
        6; 5; 11; 7; 6; 12; 8; 7; 13; 9; 8; 14].
Proof. vm_compute. reflexivity. Qed.

(** * Properties *)

(** ** Loop rules *)

Lemma for_iter_inv {S : Type} (P : Z → S → Prop) (body : Z → S → S) n i s :
  P i s →
  (∀ j t, i ≤ j < i + Z.of_nat n → P j t → P (j + 1) (body j t)) →
  P (i + Z.of_nat n) (for_iter n i body s).
Proof.
  revert i s. induction n as [|n IH]; intros i s Hs Hstep; simpl.
  - by replace (i + Z.of_nat 0) with i by lia.
  - replace (i + Z.of_nat (Datatypes.S n)) with ((i + 1) + Z.of_nat n) by lia.
    apply IH.
    + apply Hstep; [lia | done].
    + intros j t Hj. apply Hstep. lia.
Qed.

Lemma for_lt_inv {S : Type} (P : Z → S → Prop) (body : Z → S → S) lo hi s :
  lo ≤ hi →
  P lo s →
  (∀ j t, lo ≤ j < hi → P j t → P (j + 1) (body j t)) →
  P hi (for_lt lo hi body s).
Proof.
  intros Hle Hs Hstep. unfold for_lt.
  replace hi with (lo + Z.of_nat (Z.to_nat (hi - lo))) at 1 by lia.
  apply for_iter_inv; [done |].
  intros j t Hj. apply Hstep. lia.
Qed.

Lemma for_le_inv {S : Type} (P : Z → S → Prop) (body : Z → S → S) lo hi s :
  lo ≤ hi + 1 →
  P lo s →
  (∀ j t, lo ≤ j ≤ hi → P j t → P (j + 1) (body j t)) →
  P (hi + 1) (for_le lo hi body s).
Proof.
  intros Hle Hs Hstep. unfold for_le. apply for_lt_inv; [done .. |].
  intros j t Hj. apply Hstep. lia.
Qed.

Lemma for_iterM_inv {S : Type} (P : Z → S → Prop) (body : Z → S → option S) n i s :
  P i s →
  (∀ j t, i ≤ j < i + Z.of_nat n → P j t → ∃ t', body j t = Some t' ∧ P (j + 1) t') →
  ∃ s', for_iterM n i body s = Some s' ∧ P (i + Z.of_nat n) s'.
Proof.
  revert i s. induction n as [|n IH]; intros i s Hs Hstep; simpl.
  - exists s. by replace (i + Z.of_nat 0) with i by lia.
  - destruct (Hstep i s) as (t' & Hb & Ht'); [lia | done |].
    rewrite Hb. simpl.
    replace (i + Z.of_nat (Datatypes.S n)) with ((i + 1) + Z.of_nat n) by lia.
    apply IH; [done |].
    intros j t Hj. apply Hstep. lia.
Qed.

Lemma for_ltM_inv {S : Type} (P : Z → S → Prop) (body : Z → S → option S) lo hi s :
  lo ≤ hi →
  P lo s →
  (∀ j t, lo ≤ j < hi → P j t → ∃ t', body j t = Some t' ∧ P (j + 1) t') →
  ∃ s', for_ltM lo hi body s = Some s' ∧ P hi s'.
Proof.
  intros Hle Hs Hstep. unfold for_ltM.
  destruct (for_iterM_inv P body (Z.to_nat (hi - lo)) lo s Hs) as (s' & Hrun & Hs').
  - intros j t Hj. apply Hstep. lia.
  - exists s'. split; [done |].
    by replace hi with (lo + Z.of_nat (Z.to_nat (hi - lo))) by lia.
Qed.

(** Two loops that run in step keep a relation between their states. *)
Definition option_rel {S T : Type} (R : S → T → Prop) (x : option S) (y : option T) : Prop :=
  match x, y with
  | Some s, Some t => R s t
  | None, None => True
  | _, _ => False
  end.

Lemma for_iterM_rel {S T : Type} (R : S → T → Prop)
    (b1 : Z → S → option S) (b2 : Z → T → option T) n i s t :
  R s t →
  (∀ j s t, R s t → option_rel R (b1 j s) (b2 j t)) →
  option_rel R (for_iterM n i b1 s) (for_iterM n i b2 t).
Proof.
  revert i s t. induction n as [|n IH]; intros i s t Hst Hstep; simpl; [done |].
  specialize (Hstep i s t Hst) as Hb.
  destruct (b1 i s) as [s'|], (b2 i t) as [t'|]; simpl in *; try done.
  by apply IH.
Qed.

(** ** The vertex buffer *)

(** The nine floats of vertex number [k]. *)
Definition record_at (vs : list float) (k : Z) : list float :=
  take 9 (drop (Z.to_nat (9 * k)) vs).

Lemma record_at_app_old (vs e : list float) k :
  0 ≤ k → 9 * k + 9 ≤ Z.of_nat (length vs) →
  record_at (vs ++ e) k = record_at vs k.
Proof.
  intros Hk Hlen. unfold record_at.
  rewrite drop_app_le by lia.
  apply take_app_le. rewrite length_drop. lia.
Qed.

Lemma record_at_app_new (vs e : list float) k :
  0 ≤ k → Z.of_nat (length vs) = 9 * k → length e = 9%nat →
  record_at (vs ++ e) k = e.
Proof.
  intros Hk Hlen He. unfold record_at.
  rewrite drop_app_length' by lia. apply take_ge. lia.
Qed.

Lemma vec3_copy_id v : vec3_copy v = v.
Proof. by destruct v. Qed.

Section VertexLoops.

Context `{Platform}.
Variables (radius randomness : float) (w h : Z).
Hypothesis (Hw : 3 ≤ w) (Hh : 2 ≤ h).

(** What lines 71-84 push for position [p] at ring [iy], column [ix]. *)
Definition expected_record (p : vec3) (iy ix : Z) : list float :=
  vertex_record p (vec3_normalize p)
    (column_u w ix) (ring_uOffset w h iy) (ring_v h iy).

(** The column whose longitude the position of vertex [(iy, ix)] was
    computed for: column 0 on the seam and on the pole rings. *)
Definition source_column (iy ix : Z) : Z :=
  if decide (ix = w ∨ iy = 0 ∨ iy = h) then 0 else ix.

(** [p] is a point computed at lines 59-63 for ring [iy] and column [ix],
    from some draw of the generator. *)
Definition computed_at (iy ix : Z) (p : vec3) : Prop :=
  ∃ g, p = sphere_point radius randomness (dist g).1
             (column_u w ix) (ring_v h iy).

(** Vertex [(iy, ix)] is stored, and it sits at [pf] when it is on the seam
    or on a pole ring. *)
Definition col_ok (vs : list float) (pf : vec3) (iy ix : Z) : Prop :=
  ∃ p, record_at vs (iy * (w + 1) + ix) = expected_record p iy ix ∧
       computed_at iy (source_column iy ix) p ∧
       (ix = 0 ∨ ix = w ∨ iy = 0 ∨ iy = h → p = pf).

Definition ring_ok (vs : list float) (iy : Z) : Prop :=
  ∃ pf, ∀ ix, 0 ≤ ix ≤ w → col_ok vs pf iy ix.

(** The state before column [ix] of ring [iy]. *)
Record ColInv (iy ix : Z) (s : GenState) : Prop := {
  ci_length : Z.of_nat (length (gs_vertices s)) = 9 * (iy * (w + 1) + ix);
  ci_index : gs_index s = iy * (w + 1) + ix;
  ci_row : gs_verticesRow s = seqZ (iy * (w + 1)) ix;
  ci_grid : gs_grid s = (λ j, seqZ (j * (w + 1)) (w + 1)) <$> seqZ 0 iy;
  ci_rings : ∀ j, 0 ≤ j < iy → ring_ok (gs_vertices s) j;
  ci_cols : ∀ k, 0 ≤ k < ix → col_ok (gs_vertices s) (gs_firstVertex s) iy k;
  ci_first : 1 ≤ ix → computed_at iy 0 (gs_firstVertex s);
  ci_pole : 1 ≤ ix → iy = 0 ∨ iy = h → gs_vertex s = gs_firstVertex s;
}.

Lemma col_ok_app vs e pf iy ix :
  0 ≤ iy → 0 ≤ ix →
  9 * (iy * (w + 1) + ix) + 9 ≤ Z.of_nat (length vs) →
  col_ok vs pf iy ix → col_ok (vs ++ e) pf iy ix.
Proof.
  intros Hiy Hix Hlen (p & Hrec & Hq & Hpf). exists p.
  rewrite record_at_app_old by nia. done.
Qed.

Lemma ring_ok_app vs e iy :
  0 ≤ iy → 9 * ((iy + 1) * (w + 1)) ≤ Z.of_nat (length vs) →
  ring_ok vs iy → ring_ok (vs ++ e) iy.
Proof.
  intros Hiy Hlen [pf Hpf]. exists pf. intros ix Hix.
  apply col_ok_app; [lia | lia | nia | by apply Hpf].
Qed.

Lemma place_vertex_spec iy ix s :
  0 ≤ iy ≤ h → 0 ≤ ix ≤ w →
  ColInv iy ix s →
  let s1 := place_vertex radius randomness w h iy ix
              (column_u w ix) (ring_v h iy) s in
  gs_vertices s1 = gs_vertices s ∧ gs_index s1 = gs_index s ∧
  gs_verticesRow s1 = gs_verticesRow s ∧ gs_grid s1 = gs_grid s ∧
  (1 ≤ ix → gs_firstVertex s1 = gs_firstVertex s) ∧
  computed_at iy 0 (gs_firstVertex s1) ∧
  computed_at iy (source_column iy ix) (gs_vertex s1) ∧
  (ix = 0 ∨ ix = w ∨ iy = 0 ∨ iy = h → gs_vertex s1 = gs_firstVertex s1).
Proof.
  intros Hiy Hix Hinv. unfold place_vertex, source_column.
  destruct (decide (ix = w)) as [-> | Hne]; simpl.
  { rewrite vec3_copy_id, decide_True by tauto.
    repeat split; try done; apply Hinv; lia. }
  destruct (decide (ix = 0 ∨ iy ≠ 0 ∧ iy ≠ h)) as [Hfresh | Hkeep].
  - destruct (dist (gs_rng s)) as [d g] eqn:Hd; simpl.
    assert (computed_at iy ix
              (sphere_point radius randomness d (column_u w ix) (ring_v h iy)))
      as Hp.
    { exists (gs_rng s). by rewrite Hd. }
    destruct (decide (ix = 0)) as [-> | Hix0].
    + rewrite vec3_copy_id. repeat split; try done; try lia.
      by case_decide.
    + rewrite decide_False by lia.
      repeat split; try done; try (intros; lia). apply Hinv; lia.
  - rewrite decide_True by lia.
    assert (gs_vertex s = gs_firstVertex s) as Heq by (apply Hinv; lia).
    repeat split; try done; try (rewrite Heq); apply Hinv; lia.
Qed.

Lemma column_body_inv iy ix s :
  0 ≤ iy ≤ h → 0 ≤ ix ≤ w →
  ColInv iy ix s →
  ColInv iy (ix + 1)
    (column_body radius randomness w h iy
       (ring_v h iy) (ring_uOffset w h iy) ix s).
Proof.
  intros Hiy Hix Hinv.
  destruct (place_vertex_spec iy ix s Hiy Hix Hinv)
    as (Hvs & Hidx & Hrow & Hgrid & Hfirst & Hcf & Hcv & Hseam).
  unfold column_body.
  set (s1 := place_vertex radius randomness w h iy ix
               (column_u w ix) (ring_v h iy) s) in *.
  rewrite vec3_copy_id.
  pose proof (ci_length _ _ _ Hinv) as Hlen.
  constructor; simpl.
  - rewrite Hvs, length_app. simpl. lia.
  - rewrite Hidx, (ci_index _ _ _ Hinv). lia.
  - rewrite Hrow, Hidx, (ci_row _ _ _ Hinv), (ci_index _ _ _ Hinv).
    rewrite seqZ_app by lia. done.
  - rewrite Hgrid. apply Hinv.
  - intros j Hj. rewrite Hvs. apply ring_ok_app; [lia | nia |].
    by apply Hinv.
  - intros k Hk. rewrite Hvs.
    destruct (decide (k = ix)) as [-> | Hne].
    + exists (gs_vertex s1). split; [| done].
      apply record_at_app_new; [nia | lia | done].
    + rewrite Hfirst by lia.
      apply col_ok_app; [lia | lia | lia |]. apply Hinv. lia.
  - done.
  - intros _ Hpole. apply Hseam. lia.
Qed.

Lemma ring_body_inv iy s :
  0 ≤ iy ≤ h →
  ColInv iy 0 s →
  ColInv (iy + 1) 0 (ring_body radius randomness w h iy s).
Proof.
  intros Hiy Hinv. unfold ring_body.
  assert (ColInv iy 0 (new_row s)) as Hinv0.
  { destruct Hinv. by constructor. }
  pose proof (for_le_inv (ColInv iy)
    (column_body radius randomness w h iy
       (ring_v h iy) (ring_uOffset w h iy)) 0 w (new_row s)
    ltac:(lia) Hinv0) as Hloop.
  simpl in Hloop.
  set (s1 := for_le 0 w _ (new_row s)) in *.
  assert (ColInv iy (w + 1) s1) as Hs1.
  { apply Hloop. intros j t Hj Ht. by apply column_body_inv. }
  clear Hloop. destruct Hs1.
  constructor; simpl; try done.
  - lia.
  - lia.
  - rewrite (seqZ_app 0 iy 1) by lia.
    rewrite fmap_app, ci_grid0, ci_row0. f_equal.
  - intros j Hj. destruct (decide (j = iy)) as [-> | Hne].
    + exists (gs_firstVertex s1). intros ix Hix. apply ci_cols0. lia.
    + apply ci_rings0. lia.
  - intros k Hk. lia.
Qed.

(** The state after the last ring. *)
Lemma generate_vertices_inv :
  ColInv (h + 1) 0 (generate_vertices radius randomness w h).
Proof.
  unfold generate_vertices.
  apply (for_le_inv (λ iy, ColInv iy 0)); [lia | |].
  - constructor; simpl; try done; intros; lia.
  - intros j t Hj Ht. by apply ring_body_inv.
Qed.

End VertexLoops.

(** ** The index buffer *)

(** The casts commute with the loops: what is pushed is the image under
    [cast] of what the same loops push with no cast at all. *)
Lemma quad_body_cast cast grid h iy ix ind raw :
  ind = cast <$> raw →
  option_rel (λ ind raw, ind = cast <$> raw)
    (quad_body cast grid h iy ix ind) (quad_body id grid h iy ix raw).
Proof.
  intros ->. unfold quad_body.
  destruct (grid_at grid iy (ix + 1)) as [a|]; simpl; [| done].
  destruct (grid_at grid iy ix) as [b|]; simpl; [| done].
  destruct (grid_at grid (iy + 1) ix) as [c|]; simpl; [| done].
  destruct (grid_at grid (iy + 1) (ix + 1)) as [d|]; simpl; [| done].
  repeat case_decide; by rewrite ?fmap_app.
Qed.

Lemma emit_indices_cast cast grid w h :
  emit_indices cast grid w h =
  (λ raw : list Z, cast <$> raw) <$> emit_indices id grid w h.
Proof.
  assert (option_rel (λ ind raw, ind = cast <$> raw)
            (emit_indices cast grid w h) (emit_indices id grid w h)) as Hrel.
  { unfold emit_indices, for_ltM. apply for_iterM_rel; [done |].
    intros iy ind raw Hind. apply for_iterM_rel; [done |].
    intros ix ind' raw' Hind'. by apply quad_body_cast. }
  destruct (emit_indices cast grid w h), (emit_indices id grid w h);
    simpl in *; by subst.
Qed.

Section IndexLoops.

Variables w h : Z.
Hypothesis (Hw : 3 ≤ w) (Hh : 2 ≤ h).

(** The table that the vertex loops leave in [grid]: row [j] numbers the
    vertices of ring [j]. *)
Definition sphere_grid : list (list Z) :=
  (λ j, seqZ (j * (w + 1)) (w + 1)) <$> seqZ 0 (h + 1).

Lemma grid_at_sphere iy ix :
  0 ≤ iy ≤ h → 0 ≤ ix ≤ w →
  grid_at sphere_grid iy ix = Some (iy * (w + 1) + ix).
Proof.
  intros Hiy Hix. unfold grid_at, vec_at, sphere_grid.
  rewrite decide_True by lia.
  rewrite list_lookup_fmap, lookup_seqZ_lt by lia. simpl.
  rewrite decide_True by lia.
  rewrite lookup_seqZ_lt by lia. f_equal. lia.
Qed.

Definition vertexCount : Z := (w + 1) * (h + 1).

(** Triangles emitted per quad of row [iy]. *)
Definition quad_triangles (iy : Z) : Z :=
  (if decide (iy ≠ 0) then 1 else 0) + (if decide (iy ≠ h - 1) then 1 else 0).

(** Triangles emitted per column by the rows before [iy]. *)
Definition rows_triangles (iy : Z) : Z :=
  2 * iy - (if decide (1 ≤ iy) then 1 else 0) - (if decide (h ≤ iy) then 1 else 0).

Record RowInv (iy : Z) (len0 : Z) (ix : Z) (raw : list Z) : Prop := {
  ri_length : Z.of_nat (length raw) = len0 + 3 * quad_triangles iy * ix;
  ri_bound : Forall (λ x, 0 ≤ x < vertexCount) raw;
  ri_last : iy = h - 1 → ix = w → vertexCount - 1 ∈ raw;
}.

Record RowsInv (iy : Z) (raw : list Z) : Prop := {
  rs_length : Z.of_nat (length raw) = 3 * w * rows_triangles iy;
  rs_bound : Forall (λ x, 0 ≤ x < vertexCount) raw;
  rs_last : iy = h → vertexCount - 1 ∈ raw;
}.

Lemma quad_body_inv iy len0 ix raw :
  0 ≤ iy < h → 0 ≤ ix < w →
  RowInv iy len0 ix raw →
  ∃ raw', quad_body id sphere_grid h iy ix raw = Some raw' ∧
          RowInv iy len0 (ix + 1) raw'.
Proof.
  intros Hiy Hix [Hlen Hb Hlast]. unfold quad_body.
  rewrite !grid_at_sphere by lia. simpl.
  eexists. split; [done |].
  assert (0 ≤ iy * (w + 1) + ix ∧ (iy + 1) * (w + 1) + (ix + 1) < vertexCount)
    as Hrange by (unfold vertexCount; nia).
  unfold quad_triangles in Hlen. constructor.
  - unfold quad_triangles.
    repeat case_decide; rewrite ?length_app; simpl; lia.
  - repeat case_decide; rewrite ?Forall_app; repeat split; try done;
      repeat constructor; unfold vertexCount in *; nia.
  - intros -> Hixw.
    assert (vertexCount - 1 = (h - 1 + 1) * (w + 1) + (ix + 1)) as ->
      by (unfold vertexCount; nia).
    repeat case_decide; try lia; rewrite ?elem_of_app, !elem_of_cons; tauto.
Qed.

Lemma row_inv iy raw :
  0 ≤ iy < h →
  RowsInv iy raw →
  ∃ raw', for_ltM 0 w (quad_body id sphere_grid h iy) raw = Some raw' ∧
          RowsInv (iy + 1) raw'.
Proof.
  intros Hiy [Hlen Hb Hlast].
  destruct (for_ltM_inv (RowInv iy (3 * w * rows_triangles iy))
              (quad_body id sphere_grid h iy) 0 w raw) as (raw' & Hrun & Hinv).
  - lia.
  - constructor; [lia | done | lia].
  - intros j t Hj Ht. by apply quad_body_inv.
  - exists raw'. split; [done |]. destruct Hinv as [Hlen' Hb' Hlast'].
    constructor; [| done |].
    + rewrite Hlen'. unfold rows_triangles, quad_triangles.
      repeat case_decide; lia.
    + intros Heq. apply Hlast'; lia.
Qed.

(** The index loops never read outside [grid], and this is what they push
    before the casts. *)
Lemma emit_indices_inv :
  ∃ raw, emit_indices id sphere_grid w h = Some raw ∧ RowsInv h raw.
Proof.
  unfold emit_indices. apply (for_ltM_inv RowsInv); [lia | |].
  - constructor; [| done | lia]. unfold rows_triangles.
    repeat case_decide; simpl; lia.
  - intros j t Hj Ht. by apply row_inv.
Qed.

End IndexLoops.

(** ** The call as a whole *)

(** The segment counts after lines 21-22. *)
Definition clampW (widthSegments : Z) : Z := Z.max 3 widthSegments.
Definition clampH (heightSegments : Z) : Z := Z.max 2 heightSegments.

Section Call.

Context `{Platform}.
Variables (radius : float) (widthSegments heightSegments : Z) (randomness : float).

Let w := clampW widthSegments.
Let h := clampH heightSegments.

Lemma clamp_bounds : 3 ≤ w ∧ 2 ≤ h.
Proof. unfold w, h, clampW, clampH. lia. Qed.

Lemma generate_vertices_grid :
  gs_grid (generate_vertices radius randomness w h) = sphere_grid w h.
Proof.
  destruct clamp_bounds as [Hw Hh].
  by destruct (generate_vertices_inv radius randomness w h Hw Hh).
Qed.

(** [create] returns exactly when the capacity expression of line 26 stays
    within [int]; the mesh is then the vertex buffer of the first pair of
    loops and the cast image of what the second pair reads from [grid]. *)
Lemma create_cases :
  match create radius widthSegments heightSegments randomness with
  | Some m =>
      (w + 1) * (h + 1) * 8 ≤ INT_MAX ∧
      vertices m = gs_vertices (generate_vertices radius randomness w h) ∧
      ∃ raw,
        emit_indices id (gs_grid (generate_vertices radius randomness w h)) w h
          = Some raw ∧
        RowsInv w h h raw ∧
        indices m = to_uint16 <$> raw
  | None => INT_MAX < (w + 1) * (h + 1) * 8
  end.
Proof.
  destruct clamp_bounds as [Hw Hh].
  unfold create. fold (clampW widthSegments) (clampH heightSegments).
  fold w h. case_decide; [| lia].
  unfold generate_indices. rewrite emit_indices_cast, generate_vertices_grid.
  destruct (emit_indices_inv w h Hw Hh) as (raw & -> & Hraw). simpl.
  repeat split; [done |]. by exists raw.
Qed.

End Call.

(** The three position floats of vertex number [k]. *)
Definition position_at (vs : list float) (k : Z) : list float :=
  take 3 (record_at vs k).

(** The three normal floats of vertex number [k]. *)
Definition normal_at (vs : list float) (k : Z) : list float :=
  take 3 (drop 4 (record_at vs k)).

(** Every ring of the returned vertex buffer is laid out as [ring_ok] says. *)
Lemma create_rings `{Platform}
    (radius : float) (widthSegments heightSegments : Z) (randomness : float) m :
  let w := Z.max 3 widthSegments in
  let h := Z.max 2 heightSegments in
  create radius widthSegments heightSegments randomness = Some m →
  ∀ iy, 0 ≤ iy ≤ h → ring_ok radius randomness w h (vertices m) iy.
Proof.
  intros w h Hm iy Hiy.
  pose proof (create_cases radius widthSegments heightSegments randomness) as Hc.
  rewrite Hm in Hc. destruct Hc as (_ & -> & _).
  destruct (clamp_bounds widthSegments heightSegments) as [Hw Hh].
  destruct (generate_vertices_inv radius randomness _ _ Hw Hh)
    as [_ _ _ _ Hrings _ _ _].
  apply Hrings. unfold h, clampH in *. lia.
Qed.

Lemma create_vertices_length `{Platform}
    (radius : float) (widthSegments heightSegments : Z) (randomness : float) m :
  create radius widthSegments heightSegments randomness = Some m →
  Z.of_nat (length (vertices m)) =
  9 * ((Z.max 3 widthSegments + 1) * (Z.max 2 heightSegments + 1)).
Proof.
  intros Hm.
  pose proof (create_cases radius widthSegments heightSegments randomness) as Hc.
  rewrite Hm in Hc. destruct Hc as (_ & -> & _).
  destruct (clamp_bounds widthSegments heightSegments) as [Hw Hh].
  destruct (generate_vertices_inv radius randomness _ _ Hw Hh)
    as [Hlen _ _ _ _ _ _ _].
  rewrite Hlen. unfold clampW, clampH. lia.
Qed.

Lemma create_indices_length `{Platform}
    (radius : float) (widthSegments heightSegments : Z) (randomness : float) m :
  create radius widthSegments heightSegments randomness = Some m →
  Z.of_nat (length (indices m)) =
  3 * (2 * (Z.max 2 heightSegments - 1) * Z.max 3 widthSegments).
Proof.
  intros Hm.
  pose proof (create_cases radius widthSegments heightSegments randomness) as Hc.
  rewrite Hm in Hc. destruct Hc as (_ & _ & raw & _ & [Hlen _ _] & ->).
  destruct (clamp_bounds widthSegments heightSegments) as [Hw Hh].
  rewrite length_fmap, Hlen. unfold rows_triangles.
  rewrite !decide_True by lia. unfold clampW, clampH. lia.
Qed.

Lemma create_defined `{Platform}
    (radius : float) (widthSegments heightSegments : Z) (randomness : float) :
  (Z.max 3 widthSegments + 1) * (Z.max 2 heightSegments + 1) * 8 ≤ INT_MAX →
  ∃ m, create radius widthSegments heightSegments randomness = Some m.
Proof.
  intros Hfit.
  pose proof (create_cases radius widthSegments heightSegments randomness) as Hc.
  destruct (create radius widthSegments heightSegments randomness) as [m|];
    [by exists m |].
  unfold clampW, clampH in Hc. lia.
Qed.

(** ** Rounding to binary32 *)

Lemma fexp32 e : fexp F32.prec F32.emax e = Z.max (e - 24) (-149).
Proof. reflexivity. Qed.

Lemma digits2_pos_bounds p :
  2 ^ (Z.pos (digits2_pos p) - 1) ≤ Z.pos p < 2 ^ Z.pos (digits2_pos p).
Proof.
  induction p as [p IH | p IH |]; simpl digits2_pos.
  - rewrite Pos2Z.inj_succ.
    replace (Z.succ (Z.pos (digits2_pos p)) - 1)
      with (Z.succ (Z.pos (digits2_pos p) - 1)) by lia.
    rewrite !Z.pow_succ_r by lia. lia.
  - rewrite Pos2Z.inj_succ.
    replace (Z.succ (Z.pos (digits2_pos p)) - 1)
      with (Z.succ (Z.pos (digits2_pos p) - 1)) by lia.
    rewrite !Z.pow_succ_r by lia. lia.
  - simpl. lia.
Qed.

Lemma Zdigits2_bounds m :
  0 < m → 1 ≤ Zdigits2 m ∧ 2 ^ (Zdigits2 m - 1) ≤ m < 2 ^ Zdigits2 m.
Proof.
  destruct m as [|p|p]; try lia. intros _. simpl Zdigits2.
  split; [lia | apply digits2_pos_bounds].
Qed.

Lemma Zdigits2_le m k : 0 < m → 0 ≤ k → m < 2 ^ k → Zdigits2 m ≤ k.
Proof.
  intros Hm Hk Hlt. destruct (Zdigits2_bounds m Hm) as (Hd & Hlo & _).
  destruct (decide (Zdigits2 m ≤ k)) as [|Hgt]; [done | exfalso].
  assert (2 ^ k ≤ 2 ^ (Zdigits2 m - 1)) by (apply Z.pow_le_mono_r; lia). lia.
Qed.

Lemma Zdigits2_ge m k : 0 < m → 2 ^ (k - 1) ≤ m → k ≤ Zdigits2 m.
Proof.
  intros Hm Hge. destruct (Zdigits2_bounds m Hm) as (Hd & _ & Hhi).
  destruct (decide (k ≤ Zdigits2 m)) as [|Hgt]; [done | exfalso].
  assert (2 ^ Zdigits2 m ≤ 2 ^ (k - 1)) by (apply Z.pow_le_mono_r; lia). lia.
Qed.

(** One right shift halves the mantissa. *)
Lemma shr_1_m mrs : 0 ≤ shr_m mrs → shr_m (shr_1 mrs) = shr_m mrs / 2.
Proof.
  destruct mrs as [m r s]. simpl. intros Hm.
  rewrite <- Z.div2_div. by destruct m as [|[p|p|]|p].
Qed.

Lemma shr_1_nonneg mrs : 0 ≤ shr_m mrs → 0 ≤ shr_m (shr_1 mrs).
Proof.
  intros Hm. rewrite shr_1_m by done. by apply Z.div_pos.
Qed.

Lemma pow2_xO p : 2 ^ Z.pos p~0 = 2 ^ Z.pos p * 2 ^ Z.pos p.
Proof.
  rewrite (Pos2Z.inj_xO p).
  replace (2 * Z.pos p) with (Z.pos p + Z.pos p) by lia.
  by rewrite Z.pow_add_r by lia.
Qed.

Lemma pow2_xI p : 2 ^ Z.pos p~1 = 2 * (2 ^ Z.pos p * 2 ^ Z.pos p).
Proof.
  rewrite (Pos2Z.inj_xI p).
  replace (2 * Z.pos p + 1) with (Z.succ (Z.pos p + Z.pos p)) by lia.
  by rewrite Z.pow_succ_r, Z.pow_add_r by lia.
Qed.

Lemma pow2_pos k : 0 ≤ k → 0 < 2 ^ k.
Proof. intros. by apply Z.pow_pos_nonneg. Qed.

Lemma shr_iter_m p mrs :
  0 ≤ shr_m mrs →
  shr_m (SpecFloat.iter_pos shr_1 p mrs) = shr_m mrs / 2 ^ Z.pos p.
Proof.
  revert mrs. induction p as [p IH | p IH |]; intros mrs Hm;
    simpl SpecFloat.iter_pos.
  - pose proof (pow2_pos (Z.pos p) ltac:(lia)) as Hpos.
    assert (0 ≤ shr_m (shr_1 mrs)) as H1 by by apply shr_1_nonneg.
    assert (0 ≤ shr_m (SpecFloat.iter_pos shr_1 p (shr_1 mrs))) as H2.
    { rewrite IH by done. apply Z.div_pos; lia. }
    rewrite IH, IH, shr_1_m by done.
    rewrite !Z.div_div by lia. by rewrite pow2_xI, Z.mul_assoc.
  - pose proof (pow2_pos (Z.pos p) ltac:(lia)) as Hpos.
    assert (0 ≤ shr_m (SpecFloat.iter_pos shr_1 p mrs)) as H2.
    { rewrite IH by done. apply Z.div_pos; lia. }
    rewrite IH, IH by done.
    rewrite !Z.div_div by lia. by rewrite pow2_xO.
  - rewrite shr_1_m by done. done.
Qed.

(** Shifting out zeros only leaves no round and no sticky bit. *)
Definition shr_exact (mrs : shr_record) : Prop :=
  shr_r mrs = false ∧ shr_s mrs = false.

Lemma shr_1_exact mrs :
  0 ≤ shr_m mrs → shr_exact mrs → shr_m mrs mod 2 = 0 → shr_exact (shr_1 mrs).
Proof.
  destruct mrs as [m r s]. unfold shr_exact. simpl. intros Hm [-> ->] Hmod.
  destruct m as [|[p|p|]|p]; simpl; try done.
  rewrite Pos2Z.inj_xI in Hmod.
  replace (2 * Z.pos p + 1) with (1 + Z.pos p * 2) in Hmod by lia.
  rewrite Z.mod_add in Hmod by lia. done.
Qed.

Lemma shr_iter_exact p mrs :
  0 ≤ shr_m mrs → shr_exact mrs → shr_m mrs mod 2 ^ Z.pos p = 0 →
  shr_exact (SpecFloat.iter_pos shr_1 p mrs).
Proof.
  revert mrs. induction p as [p IH | p IH |]; intros mrs Hm Hex Hmod;
    simpl SpecFloat.iter_pos.
  - pose proof (pow2_pos (Z.pos p) ltac:(lia)) as Hpos.
    apply Z.mod_divide in Hmod as [q Hq]; [| rewrite pow2_xI; lia].
    rewrite pow2_xI in Hq.
    assert (0 ≤ shr_m (shr_1 mrs)) as H1 by by apply shr_1_nonneg.
    assert (shr_m (shr_1 mrs) = q * 2 ^ Z.pos p * 2 ^ Z.pos p) as E1.
    { rewrite shr_1_m by done. rewrite Hq.
      replace (q * (2 * (2 ^ Z.pos p * 2 ^ Z.pos p)))
        with (q * 2 ^ Z.pos p * 2 ^ Z.pos p * 2) by lia.
      by rewrite Z.div_mul by lia. }
    assert (shr_m (SpecFloat.iter_pos shr_1 p (shr_1 mrs)) = q * 2 ^ Z.pos p)
      as E2.
    { rewrite shr_iter_m, E1 by done. by rewrite Z.div_mul by lia. }
    apply IH.
    + rewrite E2. nia.
    + apply IH; [done | | ].
      * apply shr_1_exact; [done .. |]. rewrite Hq.
        replace (q * (2 * (2 ^ Z.pos p * 2 ^ Z.pos p)))
          with (q * 2 ^ Z.pos p * 2 ^ Z.pos p * 2) by lia.
        by rewrite Z.mod_mul by lia.
      * rewrite E1. by rewrite Z.mod_mul by lia.
    + rewrite E2. by rewrite Z.mod_mul by lia.
  - pose proof (pow2_pos (Z.pos p) ltac:(lia)) as Hpos.
    apply Z.mod_divide in Hmod as [q Hq]; [| rewrite pow2_xO; lia].
    rewrite pow2_xO in Hq.
    assert (shr_m mrs = q * 2 ^ Z.pos p * 2 ^ Z.pos p) as E1 by lia.
    assert (shr_m (SpecFloat.iter_pos shr_1 p mrs) = q * 2 ^ Z.pos p) as E2.
    { rewrite shr_iter_m, E1 by done. by rewrite Z.div_mul by lia. }
    apply IH.
    + rewrite E2. nia.
    + apply IH; [done .. |]. rewrite E1. by rewrite Z.mod_mul by lia.
    + rewrite E2. by rewrite Z.mod_mul by lia.
  - apply shr_1_exact; done.
Qed.

(** A mantissa and an exponent as an integer multiple of 2^-1000, so that
    numbers at different exponents compare in [Z]. *)
Definition scale (m e : Z) : Z := m * 2 ^ (e + 1000).

Lemma scale_le m m' e : -1000 ≤ e → m ≤ m' → scale m e ≤ scale m' e.
Proof.
  intros He Hm. unfold scale.
  pose proof (pow2_pos (e + 1000) ltac:(lia)). nia.
Qed.

Lemma scale_le_inv m m' e : -1000 ≤ e → scale m e ≤ scale m' e → m ≤ m'.
Proof.
  intros He Hm. unfold scale in Hm.
  pose proof (pow2_pos (e + 1000) ltac:(lia)). nia.
Qed.

Lemma scale_lt m m' e : -1000 ≤ e → m < m' → scale m e < scale m' e.
Proof.
  intros He Hm. unfold scale.
  pose proof (pow2_pos (e + 1000) ltac:(lia)). nia.
Qed.

Lemma scale_shift m e k : 0 ≤ k → -1000 ≤ e → scale m (e + k) = scale (m * 2 ^ k) e.
Proof.
  intros Hk He. unfold scale.
  replace (e + k + 1000) with (k + (e + 1000)) by lia.
  rewrite Z.pow_add_r by lia. lia.
Qed.

Lemma scale_exp_le m e e' : 0 ≤ m → -1000 ≤ e ≤ e' → scale m e ≤ scale m e'.
Proof.
  intros Hm He. replace e' with (e + (e' - e)) by lia.
  rewrite scale_shift by lia. apply scale_le; [lia |].
  pose proof (pow2_pos (e' - e) ltac:(lia)). nia.
Qed.

Lemma scale_exp_lt_inv m e e' :
  0 < m → -1000 ≤ e → -1000 ≤ e' → scale m e < scale m e' → e < e'.
Proof.
  intros Hm He He' Hlt.
  destruct (decide (e < e')) as [|Hge]; [done | exfalso].
  pose proof (scale_exp_le m e' e ltac:(lia) ltac:(lia)). lia.
Qed.

(** How far above the mantissa the exact value may lie, in units of the
    last place. *)
Definition loc_up (l : location) : Z :=
  match l with loc_Exact => 0 | loc_Inexact _ => 1 end.

Lemma loc_up_bounds l : 0 ≤ loc_up l ≤ 1.
Proof. destruct l; simpl; lia. Qed.

Lemma round_nearest_even_bounds m l :
  m ≤ round_nearest_even m l ≤ m + loc_up l.
Proof. destruct l as [|[]]; simpl; try destruct (Z.even m); lia. Qed.

Lemma loc_of_shr_record_of_loc m l :
  loc_of_shr_record (shr_record_of_loc m l) = l.
Proof. by destruct l as [|[]]. Qed.

Lemma shr_m_of_loc m l : shr_m (shr_record_of_loc m l) = m.
Proof. by destruct l as [|[]]. Qed.

Lemma shr_exact_loc mrs : shr_exact mrs → loc_of_shr_record mrs = loc_Exact.
Proof. destruct mrs as [m r s]. unfold shr_exact. simpl. by intros [-> ->]. Qed.

(** The first shift of [binary_round_aux] and the rounding that follows:
    the rounded mantissa has at most 24 bits, or is 2^24, and does not
    exceed a bound that the exact value does not exceed. *)
Lemma shift_round_bound M E l mb eb :
  0 < M → -1000 ≤ E →
  E ≤ fexp F32.prec F32.emax (Zdigits2 M + E) →
  0 < mb < 2 ^ 24 → -149 ≤ eb ≤ 104 →
  scale (M + loc_up l) E ≤ scale mb eb →
  ∃ mrs e1,
    shr_fexp F32.prec F32.emax M E l = (mrs, e1) ∧
    let m2 := round_nearest_even (shr_m mrs) (loc_of_shr_record mrs) in
    0 ≤ m2 ≤ 2 ^ 24 ∧ -149 ≤ e1 ∧
    scale m2 e1 ≤ scale mb eb ∧
    (e1 = -149 ∨ 2 ^ 23 ≤ m2) ∧
    (∀ k, -149 ≤ k → scale 1 k ≤ scale M E → scale 1 k ≤ scale m2 e1).
Proof.
  intros HM HE Hn Hmb Heb Hle.
  destruct (Zdigits2_bounds M HM) as (HD1 & HDlo & HDhi).
  rewrite fexp32 in Hn. unfold shr_fexp. rewrite fexp32.
  set (D := Zdigits2 M) in *.
  set (e1 := Z.max (D + E - 24) (-149)) in *.
  assert (scale M E ≤ scale mb eb) as HleM.
  { etrans; [| exact Hle]. apply scale_le; [lia |].
    destruct l; simpl; lia. }
  (* the bound is not below the target exponent *)
  assert (e1 = -149 ∨ (e1 = D + E - 24 ∧ e1 ≤ eb)) as Hcase.
  { destruct (decide (e1 = -149)) as [|Hne]; [by left | right].
    assert (e1 = D + E - 24) as He1 by lia. split; [done |].
    destruct (decide (e1 ≤ eb)) as [|Hgt]; [done | exfalso].
    assert (scale mb eb < scale (2 ^ 24) eb) as H1 by (apply scale_lt; lia).
    assert (scale (2 ^ 24) eb ≤ scale (2 ^ 24) (e1 - 1)) as H2
      by (apply scale_exp_le; lia).
    assert (scale (2 ^ 24) (e1 - 1) = scale (2 ^ (D - 1)) E) as H3.
    { unfold scale. rewrite <- !Z.pow_add_r by lia. f_equal. lia. }
    assert (scale (2 ^ (D - 1)) E ≤ scale M E) as H4 by (apply scale_le; lia).
    lia. }
  destruct (e1 - E) as [|p|p] eqn:Hshift; [| | lia].
  - (* no shift *)
    exists (shr_record_of_loc M l), E. split; [done |].
    rewrite shr_m_of_loc, loc_of_shr_record_of_loc.
    pose proof (round_nearest_even_bounds M l) as Hr. cbv zeta.
    assert (E = e1) as HEe by lia.
    assert (D ≤ 24) as HD24 by lia.
    assert (M < 2 ^ 24).
    { assert (2 ^ D ≤ 2 ^ 24) by (apply Z.pow_le_mono_r; lia). lia. }
    split; [destruct l; simpl in *; lia |]. split; [lia |].
    split; [| split].
    + etrans; [| exact Hle]. apply scale_le; lia.
    + destruct Hcase as [? | [? ?]]; [left; lia | right].
      assert (D = 24) as HD by lia. rewrite HD in HDlo. simpl in HDlo. lia.
    + intros k Hk Hlo. etrans; [exact Hlo |]. apply scale_le; lia.
  - (* a shift by [p] places *)
    set (mrs := SpecFloat.iter_pos shr_1 p (shr_record_of_loc M l)).
    exists mrs, (E + Z.pos p). split; [done |].
    pose proof (pow2_pos (Z.pos p) ltac:(lia)) as Hpp.
    assert (shr_m mrs = M / 2 ^ Z.pos p) as Hm1.
    { unfold mrs. rewrite shr_iter_m; rewrite shr_m_of_loc; [done | lia]. }
    pose proof (round_nearest_even_bounds (shr_m mrs) (loc_of_shr_record mrs))
      as Hr.
    pose proof (loc_up_bounds (loc_of_shr_record mrs)) as Hup1.
    pose proof (loc_up_bounds l) as Hup0.
    rewrite Hm1 in Hr. cbv zeta. rewrite Hm1.
    set (m2 := round_nearest_even (M / 2 ^ Z.pos p) (loc_of_shr_record mrs)) in *.
    assert (E + Z.pos p = e1) as He1 by lia. rewrite He1.
    assert (0 ≤ M / 2 ^ Z.pos p) as Hm1pos by (apply Z.div_pos; lia).
    assert (M / 2 ^ Z.pos p < 2 ^ 24) as Hm1lt.
    { apply Z.div_lt_upper_bound; [lia |].
      rewrite <- Z.pow_add_r by lia.
      assert (2 ^ D ≤ 2 ^ (Z.pos p + 24)) by (apply Z.pow_le_mono_r; lia).
      lia. }
    split; [destruct (loc_of_shr_record mrs); simpl in *; lia |].
    split; [lia |]. split; [| split].
    + (* the bound *)
      assert (e1 ≤ eb) as Hee.
      { destruct Hcase as [? | [? ?]]; lia. }
      set (B := mb * 2 ^ (eb - e1)).
      assert (scale mb eb = scale (B * 2 ^ Z.pos p) E) as HB.
      { replace eb with (E + (Z.pos p + (eb - e1))) at 1 by lia.
        rewrite scale_shift by lia. f_equal. unfold B.
        rewrite Z.pow_add_r by lia. lia. }
      assert (M + loc_up l ≤ B * 2 ^ Z.pos p) as HMB.
      { apply (scale_le_inv _ _ E); [lia |]. by rewrite <- HB. }
      assert (m2 ≤ B) as Hm2B.
      { destruct (decide (M / 2 ^ Z.pos p < B)) as [Hlt | Hge]; [lia |].
        assert (M / 2 ^ Z.pos p ≤ B) as Hdiv.
        { apply Z.div_le_upper_bound; [lia |]. destruct l; simpl in *; lia. }
        assert (M = B * 2 ^ Z.pos p ∧ loc_up l = 0) as [HMeq Hl0].
        { assert (2 ^ Z.pos p * (M / 2 ^ Z.pos p) ≤ M)
            by (apply Z.mul_div_le; lia).
          destruct l; simpl in *; nia. }
        assert (loc_of_shr_record mrs = loc_Exact) as Hex.
        { apply shr_exact_loc. unfold mrs. apply shr_iter_exact.
          - rewrite shr_m_of_loc. lia.
          - destruct l; [done | simpl in Hl0; lia].
          - rewrite shr_m_of_loc, HMeq. by rewrite Z.mod_mul by lia. }
        unfold m2 in *. rewrite Hex in *. simpl in *. lia. }
      rewrite HB. replace e1 with (E + Z.pos p) by lia.
      rewrite scale_shift by lia. apply scale_le; [lia |]. nia.
    + destruct Hcase as [? | [HeD _]]; [by left | right].
      assert (2 ^ 23 ≤ M / 2 ^ Z.pos p); [| lia].
      apply Z.div_le_lower_bound; [lia |].
      rewrite <- Z.pow_add_r by lia.
      replace (Z.pos p + 23) with (D - 1) by lia. lia.
    + (* the value does not drop below a power of two *)
      intros k Hk Hlo.
      assert (e1 = -149 ∨ 2 ^ 23 ≤ M / 2 ^ Z.pos p) as Hnorm.
      { destruct Hcase as [? | [HeD _]]; [by left | right].
        apply Z.div_le_lower_bound; [lia |].
        rewrite <- Z.pow_add_r by lia.
        replace (Z.pos p + 23) with (D - 1) by lia. lia. }
      destruct (decide (e1 ≤ k)) as [Hek | Hke].
      * assert (scale 1 k = scale (2 ^ (k - e1) * 2 ^ Z.pos p) E) as Hk1.
        { replace k with (E + (Z.pos p + (k - e1))) at 1 by lia.
          rewrite scale_shift by lia. f_equal.
          rewrite Z.pow_add_r by lia. lia. }
        assert (2 ^ (k - e1) * 2 ^ Z.pos p ≤ M) as HkM.
        { apply (scale_le_inv _ _ E); [lia |]. by rewrite <- Hk1. }
        assert (2 ^ (k - e1) ≤ M / 2 ^ Z.pos p) as Hkm1.
        { apply Z.div_le_lower_bound; lia. }
        replace k with (e1 + (k - e1)) by lia.
        rewrite scale_shift by lia. apply scale_le; lia.
      * assert (1 ≤ m2) by (destruct Hnorm; lia).
        etrans; [apply (scale_exp_le 1 k e1); lia |].
        apply scale_le; lia.
Qed.

Lemma bounded32 m e :
  bounded F32.prec F32.emax m e = true ↔
  Z.max (Z.pos (digits2_pos m) + e - 24) (-149) = e ∧ e ≤ 104.
Proof.
  unfold bounded, canonical_mantissa. rewrite fexp32.
  rewrite andb_true_iff, Z.eqb_eq, Z.leb_le. done.
Qed.

(** The second shift of [binary_round_aux], which renormalises a mantissa
    that rounding has carried to 2^24. *)
Lemma reshift_bound m2 e1 mb eb :
  0 ≤ m2 ≤ 2 ^ 24 → -149 ≤ e1 →
  e1 = -149 ∨ 2 ^ 23 ≤ m2 →
  0 < mb < 2 ^ 24 → -149 ≤ eb ≤ 104 →
  scale m2 e1 ≤ scale mb eb →
  ∃ mrs e2,
    shr_fexp F32.prec F32.emax m2 e1 loc_Exact = (mrs, e2) ∧
    ((shr_m mrs = 0 ∧ m2 = 0) ∨
     ∃ m, shr_m mrs = Z.pos m ∧ e2 ≤ 104 ∧
          bounded F32.prec F32.emax m e2 = true ∧
          scale (Z.pos m) e2 = scale m2 e1).
Proof.
  intros Hm2 He1 Hnorm Hmb Heb Hle.
  assert (2 ^ 23 ≤ m2 → e1 ≤ eb) as Hee.
  { intros H23.
    assert (scale (2 ^ 23) e1 ≤ scale m2 e1) by (apply scale_le; lia).
    assert (scale mb eb < scale (2 ^ 24) eb) by (apply scale_lt; lia).
    assert (scale (2 ^ 23) e1 = scale (2 ^ 24) (e1 - 1)) as Heq.
    { unfold scale. rewrite <- !Z.pow_add_r by lia. f_equal. lia. }
    assert (e1 - 1 < eb); [| lia].
    apply (scale_exp_lt_inv (2 ^ 24)); lia. }
  unfold shr_fexp. rewrite fexp32.
  destruct (decide (m2 = 0)) as [-> | Hnz].
  { simpl Zdigits2.
    destruct (Z.max (0 + e1 - 24) (-149) - e1) as [|p|p] eqn:Hs; [| lia |];
      eexists _, _; (split; [done |]); by left. }
  destruct (decide (m2 = 2 ^ 24)) as [-> | Hlt].
  { change (Zdigits2 (2 ^ 24)) with 25.
    replace (Z.max (25 + e1 - 24) (-149) - e1) with 1 by lia.
    eexists _, _. split; [done |]. right. simpl shr_m.
    exists 8388608%positive. split; [done |].
    assert (e1 < eb).
    { assert (scale mb eb < scale (2 ^ 24) eb) by (apply scale_lt; lia).
      apply (scale_exp_lt_inv (2 ^ 24)); lia. }
    split; [lia |]. split.
    - apply bounded32. simpl digits2_pos. lia.
    - rewrite scale_shift by lia. f_equal. }
  assert (0 < m2 < 2 ^ 24) as Hm2' by lia.
  pose proof (Zdigits2_le m2 24 ltac:(lia) ltac:(lia) ltac:(lia)) as HD.
  destruct (Zdigits2_bounds m2 ltac:(lia)) as (HD1 & _).
  destruct (Z.max (Zdigits2 m2 + e1 - 24) (-149) - e1) as [|p|p] eqn:Hs;
    [| lia |].
  all: eexists _, _; (split; [done |]); right; simpl shr_m.
  all: destruct m2 as [|m|m]; try lia; exists m; split; [done |].
  all: assert (e1 ≤ 104) by (destruct Hnorm; lia).
  all: split; [done |]; split; [| done].
  all: apply bounded32; split; [| done].
  all: destruct Hnorm as [-> | H23]; [simpl in HD; lia |].
  all: pose proof (Zdigits2_ge (Z.pos m) 24 ltac:(lia) H23) as HD'.
  all: simpl in HD, HD'; lia.
Qed.

(** The float that [binary_round_aux] returns, when the exact value is
    positive and at most [mb * 2^eb], a number of binary32: it is a zero
    or a valid finite float that is at most [mb * 2^eb]. *)
Definition within (r : spec_float) (s : bool) (mb eb : Z) : Prop :=
  r = S754_zero s ∨
  ∃ m e, r = S754_finite s m e ∧ bounded F32.prec F32.emax m e = true ∧
         scale (Z.pos m) e ≤ scale mb eb.

(** The same when the exact value is at least [2^k] as well: the float is
    not a zero and is at least [2^k]. *)
Definition between (r : spec_float) (s : bool) (k mb eb : Z) : Prop :=
  ∃ m e, r = S754_finite s m e ∧ bounded F32.prec F32.emax m e = true ∧
         scale 1 k ≤ scale (Z.pos m) e ≤ scale mb eb.

Lemma round_aux_cases s M E l mb eb :
  0 < M → -1000 ≤ E →
  E ≤ fexp F32.prec F32.emax (Zdigits2 M + E) →
  0 < mb < 2 ^ 24 → -149 ≤ eb ≤ 104 →
  scale (M + loc_up l) E ≤ scale mb eb →
  within (binary_round_aux F32.prec F32.emax s M E l) s mb eb ∧
  (∀ k, -149 ≤ k → scale 1 k ≤ scale M E →
     between (binary_round_aux F32.prec F32.emax s M E l) s k mb eb).
Proof.
  intros HM HE Hn Hmb Heb Hle.
  destruct (shift_round_bound M E l mb eb HM HE Hn Hmb Heb Hle)
    as (mrs & e1 & Hshift & Hm2 & He1 & Hb & Hnorm & Hlow).
  destruct (reshift_bound _ e1 mb eb Hm2 He1 Hnorm Hmb Heb Hb)
    as (mrs' & e2 & Hshift' & Hres).
  unfold binary_round_aux. rewrite Hshift, Hshift'.
  change (F32.emax - F32.prec) with 104.
  destruct Hres as [[-> Hz] | (m & -> & He2 & Hbd & Hsc)].
  - split; [by left |]. intros k Hk Hlo. specialize (Hlow k Hk Hlo).
    rewrite Hz in Hlow. unfold scale in Hlow.
    pose proof (pow2_pos (k + 1000) ltac:(lia)). lia.
  - destruct (Z.leb_spec e2 104); [| lia]. split.
    + right. exists m, e2. by rewrite Hsc.
    + intros k Hk Hlo. exists m, e2. rewrite Hsc. auto.
Qed.

(** ** Valid finite floats and their size *)

Lemma bounded_range m e :
  bounded F32.prec F32.emax m e = true →
  Z.pos m < 2 ^ 24 ∧ -149 ≤ e ≤ 104 ∧ Zdigits2 (Z.pos m) ≤ 24 ∧
  (e = -149 ∨ Zdigits2 (Z.pos m) = 24).
Proof.
  rewrite bounded32. intros [Hc He].
  destruct (Zdigits2_bounds (Z.pos m) ltac:(lia)) as (Hd & Hlo & Hhi).
  simpl Zdigits2 in *.
  assert (Z.pos (digits2_pos m) ≤ 24) as Hd24 by lia.
  assert (2 ^ Z.pos (digits2_pos m) ≤ 2 ^ 24) by (apply Z.pow_le_mono_r; lia).
  lia.
Qed.

(** [x] is a zero or a valid finite float of absolute value at most
    [mb * 2^eb]. *)
Definition finite_le (x : spec_float) (mb eb : Z) : Prop :=
  match x with
  | S754_zero _ => True
  | S754_finite _ m e =>
      bounded F32.prec F32.emax m e = true ∧ scale (Z.pos m) e ≤ scale mb eb
  | _ => False
  end.

(** [x] is a valid finite float of absolute value at least [2^k]. *)
Definition finite_ge (x : spec_float) (k : Z) : Prop :=
  match x with
  | S754_finite _ m e =>
      bounded F32.prec F32.emax m e = true ∧ scale 1 k ≤ scale (Z.pos m) e
  | _ => False
  end.

Lemma within_finite_le r s mb eb : within r s mb eb → finite_le r mb eb.
Proof. intros [-> | (m & e & -> & Hb & Hs)]; simpl; auto. Qed.

Lemma between_finite r s k mb eb :
  between r s k mb eb → finite_ge r k ∧ finite_le r mb eb.
Proof. intros (m & e & -> & Hb & Hlo & Hhi); simpl; auto. Qed.

Lemma scale_mul a b e1 e2 :
  -1000 ≤ e1 → -1000 ≤ e2 → -1000 ≤ e1 + e2 →
  scale (a * b) (e1 + e2) * 2 ^ 1000 = scale a e1 * scale b e2.
Proof.
  intros H1 H2 H12. unfold scale.
  replace (a * b * 2 ^ (e1 + e2 + 1000) * 2 ^ 1000)
    with (a * b * (2 ^ (e1 + e2 + 1000) * 2 ^ 1000)) by lia.
  rewrite <- Z.pow_add_r by lia.
  replace (e1 + e2 + 1000 + 1000) with ((e1 + 1000) + (e2 + 1000)) by lia.
  rewrite Z.pow_add_r by lia. lia.
Qed.

Lemma Zdigits2_mul a b :
  0 < a → 0 < b → Zdigits2 a + Zdigits2 b - 1 ≤ Zdigits2 (a * b).
Proof.
  intros Ha Hb.
  destruct (Zdigits2_bounds a Ha) as (Hda & Hla & _).
  destruct (Zdigits2_bounds b Hb) as (Hdb & Hlb & _).
  apply Zdigits2_ge; [nia |].
  replace (Zdigits2 a + Zdigits2 b - 1 - 1)
    with ((Zdigits2 a - 1) + (Zdigits2 b - 1)) by lia.
  rewrite Z.pow_add_r by lia.
  pose proof (pow2_pos (Zdigits2 a - 1) ltac:(lia)).
  pose proof (pow2_pos (Zdigits2 b - 1) ltac:(lia)). nia.
Qed.

(** The product of two valid finite floats, whose exact value is at most a
    number of binary32, is a zero or a valid finite float within that
    number. *)
Lemma mul_within sx mx ex sy my ey mb eb :
  bounded F32.prec F32.emax mx ex = true →
  bounded F32.prec F32.emax my ey = true →
  0 < mb < 2 ^ 24 → -149 ≤ eb ≤ 104 →
  scale (Z.pos mx * Z.pos my) (ex + ey) ≤ scale mb eb →
  within (SFmul F32.prec F32.emax (S754_finite sx mx ex) (S754_finite sy my ey))
    (xorb sx sy) mb eb.
Proof.
  intros Hx Hy Hmb Heb Hle. simpl SFmul.
  destruct (bounded_range mx ex Hx) as (_ & Hex & Hdx & Hnx).
  destruct (bounded_range my ey Hy) as (_ & Hey & Hdy & Hny).
  destruct (Zdigits2_bounds (Z.pos mx) ltac:(lia)) as (Hdx1 & _).
  destruct (Zdigits2_bounds (Z.pos my) ltac:(lia)) as (Hdy1 & _).
  pose proof (Zdigits2_mul (Z.pos mx) (Z.pos my) ltac:(lia) ltac:(lia)) as HD.
  apply round_aux_cases; try done; try lia.
  rewrite fexp32, Pos2Z.inj_mul. lia.
Qed.

(** Multiplying by a float of absolute value at most 1 does not overflow. *)
Lemma mul_le_one x y :
  finite_le x 1 0 →
  valid_binary F32.prec F32.emax y = true →
  match y with S754_zero _ | S754_finite _ _ _ => True | _ => False end →
  finite_le (SFmul F32.prec F32.emax x y) (2 ^ 24 - 1) 104.
Proof.
  intros Hx Hy Hfin.
  destruct x as [sx | | | sx mx ex], y as [sy | | | sy my ey]; try done.
  destruct Hx as [Hbx Hx1]. simpl in Hy.
  destruct (bounded_range mx ex Hbx) as (_ & Hex & _).
  destruct (bounded_range my ey Hy) as (Hmy & Hey & _).
  apply (within_finite_le _ (xorb sx sy)).
  apply mul_within; try done; try lia.
  assert (scale (Z.pos my) ey ≤ scale (2 ^ 24 - 1) 104) as Hy1.
  { etrans; [apply (scale_le _ (2 ^ 24 - 1)); lia |].
    apply scale_exp_le; lia. }
  apply (proj2 (Z.mul_le_mono_pos_r _ _ (2 ^ 1000) (pow2_pos 1000 ltac:(lia)))).
  rewrite scale_mul by lia.
  assert (scale 1 0 = 2 ^ 1000) as H1 by (unfold scale; f_equal; lia).
  rewrite H1 in Hx1.
  assert (0 ≤ scale (Z.pos my) ey).
  { unfold scale. pose proof (pow2_pos (ey + 1000) ltac:(lia)). lia. }
  assert (0 ≤ scale (Z.pos mx) ex).
  { unfold scale. pose proof (pow2_pos (ex + 1000) ltac:(lia)). lia. }
  nia.
Qed.

(** Powers of two as bounds. *)
Lemma mul_pow2 x y k1 k2 :
  finite_le x 1 k1 → finite_le y 1 k2 →
  -149 ≤ k1 → -149 ≤ k2 → -149 ≤ k1 + k2 ≤ 104 →
  finite_le (SFmul F32.prec F32.emax x y) 1 (k1 + k2).
Proof.
  intros Hx Hy Hk1 Hk2 Hk.
  destruct x as [sx | | | sx mx ex], y as [sy | | | sy my ey]; try done.
  destruct Hx as [Hbx Hx1], Hy as [Hby Hy1].
  destruct (bounded_range mx ex Hbx) as (_ & Hex & _).
  destruct (bounded_range my ey Hby) as (_ & Hey & _).
  apply (within_finite_le _ (xorb sx sy)).
  apply mul_within; try done; try lia.
  apply (proj2 (Z.mul_le_mono_pos_r _ _ (2 ^ 1000) (pow2_pos 1000 ltac:(lia)))).
  rewrite scale_mul by lia.
  replace 1 with (1 * 1) at 1 by lia. rewrite scale_mul by lia.
  assert (0 ≤ scale (Z.pos my) ey).
  { unfold scale. pose proof (pow2_pos (ey + 1000) ltac:(lia)). lia. }
  assert (0 ≤ scale (Z.pos mx) ex).
  { unfold scale. pose proof (pow2_pos (ex + 1000) ltac:(lia)). lia. }
  nia.
Qed.

Lemma Zdigits2_shift m d :
  0 < m → 0 ≤ d → Zdigits2 (m * 2 ^ d) = Zdigits2 m + d.
Proof.
  intros Hm Hd. destruct (Zdigits2_bounds m Hm) as (Hd1 & Hlo & Hhi).
  pose proof (pow2_pos d Hd) as Hp.
  apply Z.le_antisymm.
  - apply Zdigits2_le; [nia | lia |]. rewrite Z.pow_add_r by lia. nia.
  - apply Zdigits2_ge; [nia |].
    replace (Zdigits2 m + d - 1) with ((Zdigits2 m - 1) + d) by lia.
    rewrite Z.pow_add_r by lia. nia.
Qed.

Lemma shift_pos_value d m : Z.pos (Pos.iter xO m d) = Z.pos m * 2 ^ Z.pos d.
Proof.
  change (Pos.iter xO m d) with (shift_pos d m).
  rewrite shift_pos_correct, Zpower_pos_nat, Zpower_nat_Z.
  rewrite positive_nat_Z. lia.
Qed.

(** [binary_round] aligns the mantissa before it rounds. *)
Lemma binary_round_cases s mx ex mb eb :
  -1000 ≤ ex →
  0 < mb < 2 ^ 24 → -149 ≤ eb ≤ 104 →
  scale (Z.pos mx) ex ≤ scale mb eb →
  within (binary_round F32.prec F32.emax s mx ex) s mb eb ∧
  (∀ k, -149 ≤ k → scale 1 k ≤ scale (Z.pos mx) ex →
     between (binary_round F32.prec F32.emax s mx ex) s k mb eb).
Proof.
  intros Hex Hmb Heb Hle. unfold binary_round, shl_align.
  change (Z.pos (digits2_pos mx)) with (Zdigits2 (Z.pos mx)).
  pose proof (fexp32 (Zdigits2 (Z.pos mx) + ex)) as Hf.
  set (f := fexp F32.prec F32.emax (Zdigits2 (Z.pos mx) + ex)) in *.
  destruct (f - ex) as [|d|d] eqn:Hd.
  - apply round_aux_cases; try done; try lia;
      try (simpl loc_up; by rewrite Z.add_0_r).
  - apply round_aux_cases; try done; try lia;
      try (simpl loc_up; by rewrite Z.add_0_r).
  - assert (scale (Z.pos (Pos.iter xO mx d)) f = scale (Z.pos mx) ex) as Hv.
    { rewrite shift_pos_value. replace ex with (f + Z.pos d) by lia.
      rewrite scale_shift by lia. done. }
    rewrite <- Hv.
    apply round_aux_cases; try done; try lia.
    + rewrite shift_pos_value, Zdigits2_shift by lia. fold f.
      replace (Zdigits2 (Z.pos mx) + Z.pos d + f)
        with (Zdigits2 (Z.pos mx) + ex) by lia.
      fold f. lia.
    + simpl loc_up. by rewrite Z.add_0_r, Hv.
Qed.

(** [static_cast<float>(n)] of a positive [int]. *)
Lemma of_int_between n k :
  0 ≤ k → 2 ^ k ≤ n < 2 ^ 31 →
  between (binary_normalize F32.prec F32.emax n 0 false) false k 1 31.
Proof.
  intros Hk Hn. pose proof (pow2_pos k Hk).
  destruct n as [|p|p]; try lia. simpl binary_normalize.
  apply binary_round_cases; try lia.
  - replace 31 with (0 + 31) by lia. rewrite scale_shift by lia.
    apply scale_le; lia.
  - replace k with (0 + k) at 1 by lia. rewrite scale_shift by lia.
    apply scale_le; lia.
Qed.

(** The size of a float: the exponent of the power of two just above it. *)
Definition mag (m : positive) (e : Z) : Z := Zdigits2 (Z.pos m) + e.

Lemma mag_le_of_scale m e k :
  -1000 ≤ e → -1000 ≤ k → scale (Z.pos m) e ≤ scale 1 k → mag m e ≤ k + 1.
Proof.
  intros He Hk Hle. unfold mag.
  destruct (Zdigits2_bounds (Z.pos m) ltac:(lia)) as (Hd & Hlo & _).
  assert (scale (2 ^ (Zdigits2 (Z.pos m) - 1)) e ≤ scale 1 k) as H1.
  { etrans; [| exact Hle]. apply scale_le; lia. }
  destruct (decide (Zdigits2 (Z.pos m) + e ≤ k + 1)) as [|Hgt]; [done |].
  exfalso.
  assert (scale 1 k < scale 1 (e + (Zdigits2 (Z.pos m) - 1))).
  { unfold scale. rewrite !Z.mul_1_l.
    apply Z.pow_lt_mono_r; lia. }
  rewrite scale_shift in * by lia. rewrite Z.mul_1_l in *. lia.
Qed.

Lemma mag_ge_of_scale m e k :
  -1000 ≤ e → -1000 ≤ k → scale 1 k ≤ scale (Z.pos m) e → k + 1 ≤ mag m e.
Proof.
  intros He Hk Hle. unfold mag.
  destruct (Zdigits2_bounds (Z.pos m) ltac:(lia)) as (Hd & _ & Hhi).
  assert (scale 1 k < scale (2 ^ Zdigits2 (Z.pos m)) e) as H1.
  { eapply Z.le_lt_trans; [exact Hle |]. apply scale_lt; lia. }
  destruct (decide (k + 1 ≤ Zdigits2 (Z.pos m) + e)) as [|Hgt]; [done |].
  exfalso.
  assert (scale 1 (e + Zdigits2 (Z.pos m)) ≤ scale 1 k).
  { apply scale_exp_le; lia. }
  rewrite scale_shift in * by lia. rewrite Z.mul_1_l in *. lia.
Qed.

Lemma scale_lt_mag m e :
  -1000 ≤ e → scale (Z.pos m) e < scale 1 (mag m e).
Proof.
  intros He. unfold mag.
  destruct (Zdigits2_bounds (Z.pos m) ltac:(lia)) as (Hd & _ & Hhi).
  rewrite Z.add_comm, scale_shift by lia. rewrite Z.mul_1_l.
  apply scale_lt; lia.
Qed.

(** The quotient of two valid finite floats of comparable size. *)
Lemma div_pow2 sx mx ex sy my ey :
  bounded F32.prec F32.emax mx ex = true →
  bounded F32.prec F32.emax my ey = true →
  -100 ≤ mag mx ex - mag my ey ≤ 100 →
  finite_le (SFdiv F32.prec F32.emax (S754_finite sx mx ex) (S754_finite sy my ey))
    1 (mag mx ex - mag my ey + 1).
Proof.
  intros Hx Hy Hmag. unfold mag in *.
  destruct (bounded_range mx ex Hx) as (_ & Hex & Hdx & _).
  destruct (bounded_range my ey Hy) as (_ & Hey & Hdy & _).
  destruct (Zdigits2_bounds (Z.pos mx) ltac:(lia)) as (Hdx1 & Hxlo & Hxhi).
  destruct (Zdigits2_bounds (Z.pos my) ltac:(lia)) as (Hdy1 & Hylo & Hyhi).
  set (d1 := Zdigits2 (Z.pos mx)) in *. set (d2 := Zdigits2 (Z.pos my)) in *.
  apply (within_finite_le _ (xorb sx sy)).
  unfold SFdiv, SFdiv_core_binary. fold d1 d2. rewrite fexp32.
  replace (Z.min (Z.max (d1 + ex - (d2 + ey) - 24) (-149)) (ex - ey))
    with (d1 + ex - (d2 + ey) - 24) by lia.
  set (e' := d1 + ex - (d2 + ey) - 24).
  destruct (ex - ey - e') as [|s|s] eqn:Hs; try lia.
  rewrite Z.shiftl_mul_pow2 by lia.
  pose proof (Z_div_mod (Z.pos mx * 2 ^ Z.pos s) (Z.pos my) ltac:(lia)) as Hdiv.
  destruct (Z.div_eucl (Z.pos mx * 2 ^ Z.pos s) (Z.pos my)) as [q r].
  destruct Hdiv as [Hqr Hr].
  pose proof (pow2_pos (Z.pos s) ltac:(lia)) as Hps.
  assert (2 ^ (d1 - 1) * 2 ^ Z.pos s = 2 ^ 23 * 2 ^ d2) as Hlo.
  { rewrite <- !Z.pow_add_r by lia. f_equal. lia. }
  assert (2 ^ d1 * 2 ^ Z.pos s = 2 ^ 25 * 2 ^ (d2 - 1)) as Hhi.
  { rewrite <- !Z.pow_add_r by lia. f_equal. lia. }
  pose proof (pow2_pos d2 ltac:(lia)) as Hpd2.
  pose proof (pow2_pos (d2 - 1) ltac:(lia)) as Hpd2'.
  assert (2 ^ 23 ≤ q < 2 ^ 25) as Hq by nia.
  pose proof (Zdigits2_ge q 24 ltac:(lia) ltac:(simpl; lia)) as HDq.
  apply round_aux_cases; try lia.
  - rewrite fexp32. lia.
  - pose proof (loc_up_bounds (new_location (Z.pos my) r)).
    etrans; [apply (scale_le _ (2 ^ 25)); lia |].
    replace (d1 + ex - (d2 + ey) + 1) with (e' + 25) by lia.
    rewrite scale_shift by lia. apply scale_le; lia.
Qed.

(** ** The points of a sphere in binary32 *)

(** What the distribution of line 38 promises of a number it draws: a
    binary32 number of absolute value at most 0.5. *)
Definition draw_ok (d : float) : Prop :=
  F32.valid d = true ∧ F32.leb (F32.abs d) F32.half = true.

(** What [std::cos] and [std::sin] promise: a finite result at a finite
    argument. *)
Definition libm_finite `{Platform} : Prop :=
  ∀ x, F32.is_finite x = true →
       F32.is_finite (cosf x) = true ∧ F32.is_finite (sinf x) = true.

Lemma finite_le_is_finite x mb eb : finite_le x mb eb → F32.is_finite x = true.
Proof. by destruct x. Qed.

Lemma finite_le_weaken x k k' :
  -1000 ≤ k ≤ k' → finite_le x 1 k → finite_le x 1 k'.
Proof.
  intros Hk. destruct x as [| | | s m e]; simpl; try done.
  intros [Hb Hle]. split; [done |].
  etrans; [exact Hle |]. apply scale_exp_le; lia.
Qed.

Lemma half_value : F32.half = S754_finite false 8388608 (-24).
Proof. vm_compute. reflexivity. Qed.

Lemma leb_abs_half s m e :
  SFleb (SFabs (S754_finite s m e)) (S754_finite false 8388608 (-24)) = true →
  e < -24 ∨ (e = -24 ∧ Z.pos m ≤ 8388608).
Proof.
  unfold SFleb, SFabs, SFcompare.
  destruct (Z.compare e (-24)) eqn:He.
  - apply Z.compare_eq in He.
    destruct (Pos.compare_cont Eq m 8388608) eqn:Hm; intros Hle.
    + right. split; [done |].
      apply (Pos.compare_eq m 8388608) in Hm. by rewrite Hm.
    + right. split; [done |].
      apply Pos2Z.pos_le_pos, Pos.lt_le_incl. exact Hm.
    + discriminate.
  - intros _. left. exact He.
  - discriminate.
Qed.

Lemma draw_le_half d : draw_ok d → finite_le d 1 (-1).
Proof.
  intros [Hv Hle]. rewrite half_value in Hle.
  destruct d as [s | s | | s m e]; try done.
  split; [exact Hv |].
  destruct (bounded_range m e Hv) as (Hm & He & _).
  apply leb_abs_half in Hle. clear Hv.
  destruct Hle as [Hlt | [-> Hle]].
  - etrans; [apply (scale_le _ (2 ^ 24)); lia |].
    etrans; [apply (scale_exp_le _ e (-25)); lia |].
    replace (-1) with (-25 + 24) by lia. rewrite scale_shift by lia.
    apply scale_le; lia.
  - etrans; [apply (scale_le _ (2 ^ 23)); [lia | exact Hle] |].
    replace (-1) with (-24 + 23) by lia. rewrite scale_shift by lia.
    apply scale_le; lia.
Qed.

Lemma two_le : finite_le F32.two 1 1.
Proof. vm_compute. split; [done | discriminate]. Qed.

Lemma pi_le : finite_le F32.pi 1 2.
Proof. vm_compute. split; [done | discriminate]. Qed.

(** [dist(rng) * 2.0f * randomness] is finite whatever the finite
    [randomness]. *)
Lemma jitter_finite d randomness :
  draw_ok d → F32.valid randomness = true → F32.is_finite randomness = true →
  F32.is_finite (F32.mul (F32.mul d F32.two) randomness) = true.
Proof.
  intros Hd Hv Hf.
  apply (finite_le_is_finite _ (2 ^ 24 - 1) 104). apply mul_le_one.
  - apply (mul_pow2 d F32.two (-1) 1); [by apply draw_le_half | | lia ..].
    apply two_le.
  - exact Hv.
  - by destruct randomness.
Qed.

Lemma of_int_cases n :
  0 ≤ n < 2 ^ 31 →
  F32.of_int n = S754_zero false ∨
  ∃ m e, F32.of_int n = S754_finite false m e ∧
         bounded F32.prec F32.emax m e = true ∧ 1 ≤ mag m e ≤ 32.
Proof.
  intros Hn. destruct (decide (n = 0)) as [-> | Hnz]; [by left | right].
  destruct (of_int_between n 0 ltac:(lia) ltac:(simpl; lia))
    as (m & e & Heq & Hb & Hlo & Hhi).
  exists m, e. split; [exact Heq |]. split; [done |].
  destruct (bounded_range m e Hb) as (_ & He & _).
  pose proof (mag_ge_of_scale m e 0 ltac:(lia) ltac:(lia) Hlo).
  pose proof (mag_le_of_scale m e 31 ltac:(lia) ltac:(lia) Hhi). lia.
Qed.

(** [static_cast<float>(a) / static_cast<float>(b)] for two [int]s. *)
Lemma ratio_finite a b :
  0 ≤ a < 2 ^ 31 → 1 ≤ b < 2 ^ 31 →
  finite_le (F32.div (F32.of_int a) (F32.of_int b)) 1 32.
Proof.
  intros Ha Hb.
  destruct (of_int_cases b ltac:(lia)) as [Hz | (mb & eb & -> & Hbb & Hmb)].
  { exfalso. destruct (of_int_between b 0 ltac:(lia) ltac:(simpl; lia))
      as (m & e & Heq & _). unfold F32.of_int in Hz. congruence. }
  destruct (of_int_cases a Ha) as [-> | (ma & ea & -> & Hba & Hma)]; [done |].
  apply (finite_le_weaken _ (mag ma ea - mag mb eb + 1)); [lia |].
  apply div_pow2; [done .. | lia].
Qed.

(** The angles handed to [std::cos] and [std::sin] are finite. *)
Lemma angle_u_finite w ix :
  0 ≤ ix < 2 ^ 31 → 1 ≤ w < 2 ^ 31 →
  F32.is_finite (F32.mul (F32.mul (F32.div (F32.of_int ix) (F32.of_int w))
                            F32.pi) F32.two) = true.
Proof.
  intros Hix Hw. apply (finite_le_is_finite _ 1 (32 + 2 + 1)).
  apply mul_pow2; [| apply two_le | lia ..].
  apply mul_pow2; [| apply pi_le | lia ..].
  by apply ratio_finite.
Qed.

Lemma angle_v_finite h iy :
  0 ≤ iy < 2 ^ 31 → 1 ≤ h < 2 ^ 31 →
  F32.is_finite (F32.mul (F32.div (F32.of_int iy) (F32.of_int h)) F32.pi) = true.
Proof.
  intros Hiy Hh. apply (finite_le_is_finite _ 1 (32 + 2)).
  apply mul_pow2; [| apply pi_le | lia ..].
  by apply ratio_finite.
Qed.

Lemma mul_zero_l x y :
  F32.is_zero x = true → F32.is_finite y = true →
  F32.is_zero (F32.mul x y) = true.
Proof. by destruct x, y. Qed.

Lemma mul_zero_r x y :
  F32.is_finite x = true → F32.is_zero y = true →
  F32.is_zero (F32.mul x y) = true.
Proof. by destruct x, y. Qed.

Lemma add_zero x y :
  F32.is_zero x = true → F32.is_zero y = true →
  F32.is_zero (F32.add x y) = true.
Proof. destruct x as [[] | | |], y as [[] | | |]; done. Qed.

Lemma neg_zero x : F32.is_zero x = true → F32.is_zero (F32.neg x) = true.
Proof. by destruct x. Qed.

Lemma is_zero_finite x : F32.is_zero x = true → F32.is_finite x = true.
Proof. by destruct x. Qed.

Lemma is_zero_eqb x : F32.is_zero x = true → F32.eqb x F32.zero = true.
Proof. by destruct x. Qed.

(** A vector of zeros.  *)
Definition zero_vec (p : vec3) : Prop :=
  F32.is_zero (c0 p) = true ∧ F32.is_zero (c1 p) = true ∧
  F32.is_zero (c2 p) = true.

(** Lines 12-13 on a vector of zeros: the length is +0, which is not above
    [1e-8f], and the vector is left as it is. *)
Lemma vec3_normalize_zero p : zero_vec p → vec3_normalize p = p.
Proof.
  destruct p as [x y z]. intros (Hx & Hy & Hz). simpl in *.
  destruct x as [[] | | |], y as [[] | | |], z as [[] | | |]; done.
Qed.

(** Lines 59-63 at radius zero. *)
Lemma sphere_point_zero `{Platform} randomness d u v :
  libm_finite →
  draw_ok d → F32.valid randomness = true → F32.is_finite randomness = true →
  F32.is_finite (F32.mul (F32.mul u F32.pi) F32.two) = true →
  F32.is_finite (F32.mul v F32.pi) = true →
  zero_vec (sphere_point F32.zero randomness d u v).
Proof.
  intros Hlibm Hd Hv Hf Hu Hvv. unfold sphere_point, zero_vec. simpl.
  pose proof (jitter_finite d randomness Hd Hv Hf) as Hj.
  set (rr := F32.add F32.zero
               (F32.mul (F32.mul (F32.mul d F32.two) randomness) F32.zero)).
  assert (F32.is_zero rr = true) as Hrr.
  { apply add_zero; [done |]. by apply mul_zero_r. }
  destruct (Hlibm _ Hu) as [Hcu Hsu]. destruct (Hlibm _ Hvv) as [Hcv Hsv].
  repeat split.
  - apply mul_zero_l; [| done]. apply mul_zero_l; [| done]. by apply neg_zero.
  - by apply mul_zero_l.
  - apply mul_zero_l; [| done]. by apply mul_zero_l.
Qed.

(** * The mesh that [Sphere::create] returns *)

(** Every statement below is about all inputs: it says what the returned
    mesh is like, and that no mesh is returned only when line 26 overflows.
    [on_create] opens such a statement: it splits on the outcome of the call
    named in the goal and closes the overflow case. *)
Ltac on_create m Hm Hfacts :=
  lazymatch goal with
  | |- context [create ?r ?W ?H ?rnd] =>
      pose proof (create_cases r W H rnd) as Hfacts;
      destruct (create r W H rnd) as [m|] eqn:Hm; [| exact Hfacts]
  end.


(** C1.  For every input, with the segment counts clamped to at least 3 and
    2, the vertex array that [Sphere::create] returns holds exactly
    9 * (widthSegments + 1) * (heightSegments + 1) floats.  The call returns
    for every input but those whose capacity expression leaves [int]. *)
Theorem C1_vertices_length `{Platform}
    (radius : float) (widthSegments heightSegments : Z) (randomness : float) :
  let w := Z.max 3 widthSegments in
  let h := Z.max 2 heightSegments in
  match create radius widthSegments heightSegments randomness with
  | Some m => Z.of_nat (length (vertices m)) = 9 * (w + 1) * (h + 1)
  | None => INT_MAX < (w + 1) * (h + 1) * 8
  end.
Proof.
  intros w h.
  on_create m Hm Hc.
  rewrite (create_vertices_length _ _ _ _ m Hm). unfold w, h. lia.
Qed.

(** C2.  For every input, the index array that [Sphere::create] returns
    holds exactly 3 * (2 * (heightSegments - 1) * widthSegments) entries
    (clamped counts), a multiple of 3. *)
Theorem C2_indices_length `{Platform}
    (radius : float) (widthSegments heightSegments : Z) (randomness : float) :
  let w := Z.max 3 widthSegments in
  let h := Z.max 2 heightSegments in
  match create radius widthSegments heightSegments randomness with
  | Some m =>
      Z.of_nat (length (indices m)) = 3 * (2 * (h - 1) * w) ∧
      (3 | Z.of_nat (length (indices m)))
  | None => INT_MAX < (w + 1) * (h + 1) * 8
  end.
Proof.
  intros w h.
  on_create m Hm Hc.
  pose proof (create_indices_length _ _ _ _ m Hm) as Heq. fold w h in Heq.
  split; [done |]. rewrite Heq. by exists (2 * (h - 1) * w); lia.
Qed.

(** C6.  For every input, every entry of the returned index array is at
    least 0 and below vertexCount = (widthSegments + 1) * (heightSegments + 1)
    (clamped counts). *)
Theorem C6_indices_in_bounds `{Platform}
    (radius : float) (widthSegments heightSegments : Z) (randomness : float) :
  let w := Z.max 3 widthSegments in
  let h := Z.max 2 heightSegments in
  match create radius widthSegments heightSegments randomness with
  | Some m => Forall (λ i, 0 ≤ i < (w + 1) * (h + 1)) (indices m)
  | None => INT_MAX < (w + 1) * (h + 1) * 8
  end.
Proof.
  intros w h.
  on_create m Hm Hc.
  destruct Hc as (_ & _ & raw & _ & [_ Hb _] & ->).
  rewrite Forall_fmap. eapply Forall_impl; [exact Hb |].
  intros x Hx. simpl. unfold to_uint16, vertexCount, clampW, clampH in *.
  fold w h in Hx.
  pose proof (Z.mod_pos_bound x 65536 ltac:(lia)).
  pose proof (Z.mod_le x 65536 ltac:(lia) ltac:(lia)). lia.
Qed.

(** C10.  Every entry of the index array is the [int] read from [grid]
    reduced modulo 2^16 by the cast to [uint16_t].  The array equals the
    values read from [grid] exactly when vertexCount is at most 65536; for a
    larger mesh the last vertex is referred to, its number does not fit, and
    the entries that wrap name earlier vertices. *)
Theorem C10_index_truncation `{Platform}
    (radius : float) (widthSegments heightSegments : Z) (randomness : float) :
  let w := Z.max 3 widthSegments in
  let h := Z.max 2 heightSegments in
  let grid := gs_grid (generate_vertices radius randomness w h) in
  match create radius widthSegments heightSegments randomness with
  | Some m =>
      ∃ raw,
        emit_indices id grid w h = Some raw ∧
        indices m = (λ a, a mod 65536) <$> raw ∧
        (indices m = raw ↔ (w + 1) * (h + 1) ≤ 65536) ∧
        (65536 < (w + 1) * (h + 1) →
           (w + 1) * (h + 1) - 1 ∈ raw ∧
           Forall2 (λ i a, i ≤ a ∧ (65536 ≤ a → i < a)) (indices m) raw)
  | None => INT_MAX < (w + 1) * (h + 1) * 8
  end.
Proof.
  intros w h grid.
  on_create m Hm Hc.
  destruct Hc as (_ & _ & raw & Hraw & [_ Hb Hlast] & Hind).
  unfold vertexCount, clampW, clampH in *. fold w h in Hb, Hlast, Hraw.
  exists raw. split; [exact Hraw |]. split; [exact Hind |].
  specialize (Hlast eq_refl).
  assert (∀ a, 0 ≤ a → a mod 65536 ≤ a ∧ (65536 ≤ a → a mod 65536 < a)) as Hmod.
  { intros a Ha. pose proof (Z.mod_pos_bound a 65536 ltac:(lia)).
    pose proof (Z.mod_le a 65536 ltac:(lia) ltac:(lia)). lia. }
  split; [split |].
  - intros Heq. rewrite <- Heq, Hind in Hlast.
    apply list_elem_of_fmap in Hlast as (a & Ha & _).
    unfold to_uint16 in Ha.
    pose proof (Z.mod_pos_bound a 65536 ltac:(lia)). lia.
  - intros Hsmall. rewrite Hind. rewrite <- (list_fmap_id raw) at 2.
    apply Forall_fmap_ext. eapply Forall_impl; [exact Hb |].
    intros x Hx. simpl in *. unfold to_uint16. apply Z.mod_small. lia.
  - intros Hbig. split; [exact Hlast |].
    rewrite Hind. apply Forall2_fmap_l, Forall_Forall2_diag.
    eapply Forall_impl; [exact Hb |]. intros x Hx. simpl in *.
    apply Hmod. lia.
Qed.

(** C3.  Seam closure: for every input and every ring iy from 0 to
    heightSegments (clamped), the three position floats stored for column
    widthSegments of the ring are the very floats stored for its column 0. *)
Theorem C3_seam_closure `{Platform}
    (radius : float) (widthSegments heightSegments : Z) (randomness : float) :
  let w := Z.max 3 widthSegments in
  let h := Z.max 2 heightSegments in
  match create radius widthSegments heightSegments randomness with
  | Some m =>
      ∀ iy, 0 ≤ iy ≤ h →
        ∃ x y z,
          position_at (vertices m) (iy * (w + 1) + w) = [x; y; z] ∧
          position_at (vertices m) (iy * (w + 1) + 0) = [x; y; z]
  | None => INT_MAX < (w + 1) * (h + 1) * 8
  end.
Proof.
  intros w h.
  on_create m Hm Hc.
  intros iy Hiy.
  destruct (create_rings _ _ _ _ m Hm iy Hiy)
    as [pf Hpf].
  fold w h in Hpf.
  destruct (Hpf w ltac:(lia)) as (p & Hp & _ & Hpp).
  destruct (Hpf 0 ltac:(lia)) as (q & Hq & _ & Hqq).
  rewrite Hpp in Hp by tauto. rewrite Hqq in Hq by tauto.
  exists (c0 pf), (c1 pf), (c2 pf).
  unfold position_at. by rewrite Hp, Hq.
Qed.

(** C4.  Pole collapse: for every input, on the rings iy = 0 and
    iy = heightSegments (clamped) the position stored at every column from
    1 to widthSegments - 1 is the very position stored at column 0. *)
Theorem C4_pole_collapse `{Platform}
    (radius : float) (widthSegments heightSegments : Z) (randomness : float) :
  let w := Z.max 3 widthSegments in
  let h := Z.max 2 heightSegments in
  match create radius widthSegments heightSegments randomness with
  | Some m =>
      ∀ iy ix, iy = 0 ∨ iy = h → 1 ≤ ix ≤ w - 1 →
        ∃ x y z,
          position_at (vertices m) (iy * (w + 1) + ix) = [x; y; z] ∧
          position_at (vertices m) (iy * (w + 1) + 0) = [x; y; z]
  | None => INT_MAX < (w + 1) * (h + 1) * 8
  end.
Proof.
  intros w h.
  on_create m Hm Hc.
  intros iy ix Hiy Hix.
  destruct (create_rings _ _ _ _ m Hm iy ltac:(lia)) as [pf Hpf].
  fold w h in Hpf.
  destruct (Hpf ix ltac:(lia)) as (p & Hp & _ & Hpp).
  destruct (Hpf 0 ltac:(lia)) as (q & Hq & _ & Hqq).
  rewrite Hpp in Hp by tauto. rewrite Hqq in Hq by tauto.
  exists (c0 pf), (c1 pf), (c2 pf).
  unfold position_at. by rewrite Hp, Hq.
Qed.

(** C9.  Record layout and UV rule: the vertex of ring iy, column ix is the
    nine consecutive floats from offset 9 * (iy * (widthSegments + 1) + ix);
    the fourth is 1.0 and the last two are (u + uOffset, 1 - v) with
    u = ix / widthSegments, v = iy / heightSegments, and uOffset equal to
    0.5 / widthSegments on ring 0, -0.5 / widthSegments on ring
    heightSegments, and 0 on the other rings (clamped counts). *)
Theorem C9_record_layout `{Platform}
    (radius : float) (widthSegments heightSegments : Z) (randomness : float) :
  let w := Z.max 3 widthSegments in
  let h := Z.max 2 heightSegments in
  match create radius widthSegments heightSegments randomness with
  | Some m =>
      Z.of_nat (length (vertices m)) = 9 * ((w + 1) * (h + 1)) ∧
      ∀ iy ix, 0 ≤ iy ≤ h → 0 ≤ ix ≤ w →
        let u := F32.div (F32.of_int ix) (F32.of_int w) in
        let v := F32.div (F32.of_int iy) (F32.of_int h) in
        let uOffset :=
          if decide (iy = 0) then F32.div F32.half (F32.of_int w)
          else if decide (iy = h) then F32.div (F32.neg F32.half) (F32.of_int w)
          else F32.zero in
        ∃ x y z nx ny nz,
          take 9 (drop (Z.to_nat (9 * (iy * (w + 1) + ix))) (vertices m)) =
          [x; y; z; F32.one; nx; ny; nz; F32.add u uOffset; F32.sub F32.one v]
  | None => INT_MAX < (w + 1) * (h + 1) * 8
  end.
Proof.
  intros w h.
  on_create m Hm Hc.
  split; [exact (create_vertices_length _ _ _ _ m Hm) |].
  intros iy ix Hiy Hix u v uOffset.
  destruct (create_rings _ _ _ _ m Hm iy Hiy)
    as [pf Hpf].
  fold w h in Hpf.
  destruct (Hpf ix Hix) as (p & Hp & _ & _).
  unfold record_at in Hp. rewrite Hp.
  by exists (c0 p), (c1 p), (c2 p), (c0 (vec3_normalize p)),
    (c1 (vec3_normalize p)), (c2 (vec3_normalize p)).
Qed.

(** C8.  Degenerate radius: at radius 0.0, for any finite [randomness] and
    any segment counts, every vertex has position (0, 0, 0, 1) and normal
    (0, 0, 0): the coordinates x, y, z compare equal to 0 (they are zeros,
    so neither NaN nor infinite), and the normal is the position itself,
    [vec3_normalize] having left the zero vector as it was.  The C++ runtime
    is asked for a cosine and a sine that are finite at finite arguments and
    for draws within [-0.5, 0.5]. *)
Theorem C8_zero_radius `{Platform}
    (widthSegments heightSegments : Z) (randomness : float) :
  let w := Z.max 3 widthSegments in
  let h := Z.max 2 heightSegments in
  libm_finite →
  (∀ g, draw_ok (dist g).1) →
  F32.valid randomness = true → F32.is_finite randomness = true →
  match create F32.zero widthSegments heightSegments randomness with
  | Some m =>
      ∀ iy ix, 0 ≤ iy ≤ h → 0 ≤ ix ≤ w →
        ∃ x y z,
          take 7 (record_at (vertices m) (iy * (w + 1) + ix)) =
          [x; y; z; F32.one; x; y; z] ∧
          F32.eqb x F32.zero = true ∧ F32.eqb y F32.zero = true ∧
          F32.eqb z F32.zero = true
  | None => INT_MAX < (w + 1) * (h + 1) * 8
  end.
Proof.
  intros w h Hlibm Hdraw Hv Hf.
  on_create m Hm Hc.
  destruct Hc as (Hfit & _). unfold clampW, clampH in Hfit. fold w h in Hfit.
  assert (3 ≤ w ∧ 2 ≤ h) as [Hw Hh] by (unfold w, h; lia).
  assert (w < 2 ^ 31 ∧ h < 2 ^ 31) as [Hw31 Hh31].
  { unfold INT_MAX in Hfit. change (2 ^ 31) with 2147483648. nia. }
  intros iy ix Hiy Hix.
  destruct (create_rings _ _ _ _ m Hm iy Hiy) as [pf Hpf]. fold w h in Hpf.
  destruct (Hpf ix Hix) as (p & Hrec & [g Hp] & _).
  assert (zero_vec p) as Hz.
  { rewrite Hp. apply sphere_point_zero; try done.
    - apply angle_u_finite; [| lia]. unfold source_column. case_decide; lia.
    - apply angle_v_finite; lia. }
  rewrite Hrec. unfold expected_record. rewrite (vec3_normalize_zero p Hz).
  destruct Hz as (Hx & Hy & Hzz).
  exists (c0 p), (c1 p), (c2 p).
  split; [done |]. repeat split; by apply is_zero_eqb.
Qed.

(** C7, as the code has it.  [Sphere::create(1.0, 4, 2, 0.0)] returns 135
    vertex floats and 24 indices.  The five vertices of ring 0 sit at
    (-0.0, 1, 0, 1), which compares equal to (0, 1, 0, 1).  The five
    vertices of ring 2 sit at (-sinf(pi), cosf(pi), sinf(0) * sinf(pi), 1)
    for pi the float 3.14159274: with cosf(pi) = -1 and
    sinf(pi) = -8.742278e-8, the values of a correctly rounded libm, that is
    (8.742278e-8, -1, -0.0, 1), near the pole but not on it. *)
Theorem C7_sphere_4_2 `{Platform} :
  cosf F32.zero = F32.one → sinf F32.zero = F32.zero →
  cosf F32.pi = F32.neg F32.one →
  sinf F32.pi = S754_finite true 12303662 (-47) →
  (∀ g, draw_ok (dist g).1) →
  ∃ m, create F32.one 4 2 F32.zero = Some m ∧
       length (vertices m) = 135%nat ∧ length (indices m) = 24%nat ∧
       (∀ ix, 0 ≤ ix ≤ 4 →
          take 4 (record_at (vertices m) (0 * (4 + 1) + ix)) =
          [S754_zero true; F32.one; F32.zero; F32.one]) ∧
       (∀ ix, 0 ≤ ix ≤ 4 →
          take 4 (record_at (vertices m) (2 * (4 + 1) + ix)) =
          [S754_finite false 12303662 (-47); F32.neg F32.one;
           S754_zero true; F32.one]).
Proof.
  intros Hc0 Hs0 Hcpi Hspi Hdraw.
  destruct (create_defined F32.one 4 2 F32.zero) as [m Hm]; [done |].
  exists m. split; [done |].
  pose proof (create_vertices_length _ _ _ _ m Hm) as Hlv.
  pose proof (create_indices_length _ _ _ _ m Hm) as Hli.
  split; [lia |]. split; [lia |].
  assert (∀ d, draw_ok d →
            F32.add F32.one
              (F32.mul (F32.mul (F32.mul d F32.two) F32.zero) F32.one)
            = F32.one) as Hrr.
  { intros d Hd.
    pose proof (mul_pow2 d F32.two (-1) 1 (draw_le_half d Hd) two_le
                  ltac:(lia) ltac:(lia) ltac:(lia)) as Ht.
    change (SFmul F32.prec F32.emax d F32.two) with (F32.mul d F32.two) in Ht.
    destruct (F32.mul d F32.two) as [[] | | | [] ? ?];
      try (exfalso; exact Ht); by vm_compute. }
  assert (∀ iy ix, iy = 0 ∨ iy = 2 → 0 ≤ ix ≤ 4 →
            ∃ g, take 4 (record_at (vertices m) (iy * (4 + 1) + ix)) =
                 take 4 (vertex_record
                   (sphere_point F32.one F32.zero (dist g).1
                      (column_u 4 0) (ring_v 2 iy))
                   (Vec3 F32.zero F32.zero F32.zero)
                   F32.zero F32.zero F32.zero)) as Hpos.
  { intros iy ix Hiy Hix.
    destruct (create_rings _ _ _ _ m Hm iy ltac:(lia)) as [pf Hpf].
    change (Z.max 3 4) with 4 in Hpf. change (Z.max 2 2) with 2 in Hpf.
    destruct (Hpf ix ltac:(lia)) as (p & Hrec & [g Hp] & _).
    exists g. rewrite Hrec, Hp. unfold source_column.
    rewrite decide_True by lia. done. }
  split; intros ix Hix.
  - destruct (Hpos 0 ix ltac:(lia) Hix) as [g ->].
    unfold sphere_point. rewrite (Hrr _ (Hdraw g)).
    change (F32.mul (F32.mul (column_u 4 0) F32.pi) F32.two) with F32.zero.
    change (F32.mul (ring_v 2 0) F32.pi) with F32.zero.
    by rewrite Hc0, Hs0.
  - destruct (Hpos 2 ix ltac:(lia) Hix) as [g ->].
    unfold sphere_point. rewrite (Hrr _ (Hdraw g)).
    change (F32.mul (F32.mul (column_u 4 0) F32.pi) F32.two) with F32.zero.
    change (F32.mul (ring_v 2 2) F32.pi) with F32.pi.
    by rewrite Hc0, Hs0, Hcpi, Hspi.
Qed.

(** C7 as the specification words it, for a mesh [m]: 135 vertex floats,
    24 indices, ring 0 at (0, 1, 0, 1) and ring 2 at (0, -1, 0, 1), numbers
    compared as C++ compares them (so that -0.0 passes for 0). *)
Definition position_is (vs : list float) (k : Z) (expected : list float) : bool :=
  bool_decide (length (take 4 (record_at vs k)) = length expected) &&
  forallb (λ '(x, y), F32.eqb x y) (zip (take 4 (record_at vs k)) expected).

Definition C7_as_stated (m : SphereMesh) : bool :=
  bool_decide (length (vertices m) = 135%nat) &&
  bool_decide (length (indices m) = 24%nat) &&
  forallb (λ ix, position_is (vertices m) (0 * (4 + 1) + ix)
                   [F32.zero; F32.one; F32.zero; F32.one]) (seqZ 0 5) &&
  forallb (λ ix, position_is (vertices m) (2 * (4 + 1) + ix)
                   [F32.zero; F32.neg F32.one; F32.zero; F32.one]) (seqZ 0 5).

(** *** The stand-in platform meets what the theorems ask of a platform *)

Lemma sample_draw_ok g : draw_ok (dist (Platform := Sample.platform) g).1.
Proof.
  simpl. unfold Sample.draw. simpl.
  pose proof (Z.mod_pos_bound g 8 ltac:(lia)) as Hb.
  assert (g mod 8 = 0 ∨ g mod 8 = 1 ∨ g mod 8 = 2 ∨ g mod 8 = 3 ∨
          g mod 8 = 4 ∨ g mod 8 = 5 ∨ g mod 8 = 6 ∨ g mod 8 = 7) as Hcases by lia.
  destruct Hcases as [-> | [-> | [-> | [-> | [-> | [-> | [-> | ->]]]]]]];
    by vm_compute.
Qed.

Lemma sample_libm_finite : libm_finite (H := Sample.platform).
Proof.
  intros x Hx. simpl. unfold Sample.cos_table, Sample.sin_table.
  rewrite Hx. by repeat case_match.
Qed.

(** ** Instances on concrete spheres *)

Lemma C3_seam_closure_witness :
  match create (H := Sample.platform) F32.one 4 2 F32.zero with
  | Some m =>
      0 ≤ 1 ≤ 2 ∧
      ∃ x y z,
        position_at (vertices m) (1 * (4 + 1) + 4) = [x; y; z] ∧
        position_at (vertices m) (1 * (4 + 1) + 0) = [x; y; z]
  | None => False
  end.
Proof.
  pose proof (C3_seam_closure (H := Sample.platform) F32.one 4 2 F32.zero) as Hc.
  cbv zeta in Hc.
  destruct (create F32.one 4 2 F32.zero) as [m|].
  - split; [lia |]. apply (Hc 1). lia.
  - vm_compute in Hc. discriminate Hc.
Defined.

Lemma C4_pole_collapse_witness :
  match create (H := Sample.platform) F32.one 4 2 F32.zero with
  | Some m =>
      (2 = 0 ∨ 2 = 2) ∧ 1 ≤ 3 ≤ 4 - 1 ∧
      ∃ x y z,
        position_at (vertices m) (2 * (4 + 1) + 3) = [x; y; z] ∧
        position_at (vertices m) (2 * (4 + 1) + 0) = [x; y; z]
  | None => False
  end.
Proof.
  pose proof (C4_pole_collapse (H := Sample.platform) F32.one 4 2 F32.zero) as Hc.
  cbv zeta in Hc.
  destruct (create F32.one 4 2 F32.zero) as [m|].
  - split; [by right |]. split; [lia |]. apply (Hc 2 3); [by right | lia].
  - vm_compute in Hc. discriminate Hc.
Defined.

Lemma C9_record_layout_witness :
  match create (H := Sample.platform) F32.one 4 2 F32.zero with
  | Some m =>
      0 ≤ 2 ≤ 2 ∧ 0 ≤ 1 ≤ 4 ∧
      ∃ x y z nx ny nz,
        take 9 (drop (Z.to_nat (9 * (2 * (4 + 1) + 1))) (vertices m)) =
        [x; y; z; F32.one; nx; ny; nz;
         F32.add (F32.div (F32.of_int 1) (F32.of_int 4))
                 (F32.div (F32.neg F32.half) (F32.of_int 4));
         F32.sub F32.one (F32.div (F32.of_int 2) (F32.of_int 2))]
  | None => False
  end.
Proof.
  pose proof (C9_record_layout (H := Sample.platform) F32.one 4 2 F32.zero) as Hc.
  cbv zeta in Hc.
  destruct (create F32.one 4 2 F32.zero) as [m|].
  - split; [lia |]. split; [lia |].
    destruct Hc as [_ Hc]. apply (Hc 2 1); lia.
  - vm_compute in Hc. discriminate Hc.
Defined.

Lemma C10_index_truncation_witness :
  match create (H := Sample.platform) F32.one 300 300 F32.zero with
  | Some m =>
      65536 < (300 + 1) * (300 + 1) ∧
      ∃ raw, (300 + 1) * (300 + 1) - 1 ∈ raw ∧
             Forall2 (λ i a, i ≤ a ∧ (65536 ≤ a → i < a)) (indices m) raw
  | None => False
  end.
Proof.
  pose proof (C10_index_truncation (H := Sample.platform)
                F32.one 300 300 F32.zero) as Hc.
  cbv zeta in Hc.
  destruct (create F32.one 300 300 F32.zero) as [m|].
  - split; [lia |]. destruct Hc as (raw & _ & _ & _ & Hbig).
    exists raw. apply Hbig. lia.
  - vm_compute in Hc. discriminate Hc.
Defined.

Lemma C8_zero_radius_witness :
  libm_finite (H := Sample.platform) ∧
  (∀ g, draw_ok (dist (Platform := Sample.platform) g).1) ∧
  F32.valid F32.half = true ∧ F32.is_finite F32.half = true ∧
  match create (H := Sample.platform) F32.zero 3 2 F32.half with
  | Some m =>
      0 ≤ 1 ≤ 2 ∧ 0 ≤ 2 ≤ 3 ∧
      ∃ x y z,
        take 7 (record_at (vertices m) (1 * (3 + 1) + 2)) =
        [x; y; z; F32.one; x; y; z] ∧
        F32.eqb x F32.zero = true ∧ F32.eqb y F32.zero = true ∧
        F32.eqb z F32.zero = true
  | None => False
  end.
Proof.
  split; [exact sample_libm_finite |]. split; [exact sample_draw_ok |].
  split; [reflexivity |]. split; [reflexivity |].
  pose proof (C8_zero_radius (H := Sample.platform) 3 2 F32.half
                sample_libm_finite sample_draw_ok eq_refl eq_refl) as Hc.
  cbv zeta in Hc.
  destruct (create F32.zero 3 2 F32.half) as [m|].
  - split; [lia |]. split; [lia |]. apply (Hc 1 2); lia.
  - vm_compute in Hc. discriminate Hc.
Defined.

Lemma C7_sphere_4_2_witness :
  cosf (Platform := Sample.platform) F32.zero = F32.one ∧
  sinf (Platform := Sample.platform) F32.zero = F32.zero ∧
  cosf (Platform := Sample.platform) F32.pi = F32.neg F32.one ∧
  sinf (Platform := Sample.platform) F32.pi = S754_finite true 12303662 (-47) ∧
  (∀ g, draw_ok (dist (Platform := Sample.platform) g).1) ∧
  ∃ m, create (H := Sample.platform) F32.one 4 2 F32.zero = Some m ∧
       length (vertices m) = 135%nat ∧ length (indices m) = 24%nat ∧
       take 4 (record_at (vertices m) (0 * (4 + 1) + 3)) =
         [S754_zero true; F32.one; F32.zero; F32.one] ∧
       take 4 (record_at (vertices m) (2 * (4 + 1) + 3)) =
         [S754_finite false 12303662 (-47); F32.neg F32.one;
          S754_zero true; F32.one].
Proof.
  split; [reflexivity |]. split; [reflexivity |].
  split; [reflexivity |]. split; [reflexivity |].
  split; [exact sample_draw_ok |].
  destruct (C7_sphere_4_2 (H := Sample.platform)
              eq_refl eq_refl eq_refl eq_refl sample_draw_ok)
    as (m & Hm & Hv & Hi & H0 & H2).
  exists m. split; [exact Hm |]. split; [exact Hv |]. split; [exact Hi |].
  split; [apply H0; lia | apply H2; lia].
Defined.

(** On the stand-in platform the call returns, and the mesh is not the one
    that C7 words: the x coordinate of ring 2 is 8.742278e-8. *)
Lemma C7_counterexample :
  (m ← create (H := Sample.platform) F32.one 4 2 F32.zero;
   x ← vertices m !! 90%nat;
   Some (C7_as_stated m, x, F32.eqb x F32.zero))
  = Some (false, S754_finite false 12303662 (-47), false).
Proof. vm_compute. reflexivity. Qed.

(** * More of the generator *)

(** ** The index buffer in closed form *)

Lemma seqZ_snoc_bind {B : Type} (f : Z → list B) n :
  0 ≤ n → seqZ 0 (n + 1) ≫= f = (seqZ 0 n ≫= f) ++ f n.
Proof.
  intros Hn. rewrite seqZ_app, bind_app by lia. f_equal.
  rewrite (seqZ_cons (0 + n) 1), seqZ_nil by lia. by rewrite bind_singleton.
Qed.

(** A flat list of indices read three by three. *)
Fixpoint triangles (l : list Z) : list (Z * Z * Z) :=
  match l with
  | a :: b :: c :: r => (a, b, c) :: triangles r
  | _ => []
  end.

Definition flatten_triangle (t : Z * Z * Z) : list Z :=
  let '(a, b, c) := t in [a; b; c].

Lemma triangles_flatten n (l : list Z) :
  length l = (3 * n)%nat → triangles l ≫= flatten_triangle = l.
Proof.
  revert l. induction n as [|n IH]; intros l Hl.
  - destruct l; [done | simpl in Hl; lia].
  - destruct l as [|a [|b [|c r]]]; simpl in Hl; try lia.
    simpl triangles. rewrite bind_cons. simpl. do 3 f_equal. apply IH. lia.
Qed.

Lemma triangles_bind {A : Type} (f : A → list Z) (g : A → list (Z * Z * Z)) l r :
  (∀ x r, triangles (f x ++ r) = g x ++ triangles r) →
  triangles ((l ≫= f) ++ r) = (l ≫= g) ++ triangles r.
Proof.
  intros Hfg. induction l as [|x l IH]; [done |].
  rewrite !bind_cons, <- !app_assoc, Hfg, IH. done.
Qed.

Lemma triangles_fmap (f : Z → Z) l :
  triangles (f <$> l) = (λ '(a, b, c), (f a, f b, f c)) <$> triangles l.
Proof.
  assert (∀ n l, (length l ≤ n)%nat →
            triangles (f <$> l) = (λ '(a, b, c), (f a, f b, f c)) <$> triangles l)
    as Hall; [| by apply (Hall (length l))].
  clear l. intros n. induction n as [|n IH]; intros l Hl.
  - by destruct l; [| simpl in Hl; lia].
  - destruct l as [|a [|b [|c r]]]; try done.
    simpl. f_equal. apply IH. simpl in Hl. lia.
Qed.

Section Triangles.

Variables w h : Z.
Hypothesis (Hw : 3 ≤ w) (Hh : 2 ≤ h).

(** Lines 96-110 for the quad at row [iy], column [ix], with the numbers
    that [grid] holds: first the triangle (a, b, d), unless the row touches
    the north pole, then (b, c, d), unless it touches the south pole. *)
Definition quad_indices (iy ix : Z) : list Z :=
  let a := iy * (w + 1) + (ix + 1) in
  let b := iy * (w + 1) + ix in
  let c := (iy + 1) * (w + 1) + ix in
  let d := (iy + 1) * (w + 1) + (ix + 1) in
  (if decide (iy ≠ 0) then [a; b; d] else []) ++
  (if decide (iy ≠ h - 1) then [b; c; d] else []).

Definition row_indices (iy : Z) : list Z := seqZ 0 w ≫= quad_indices iy.

Definition all_indices : list Z := seqZ 0 h ≫= row_indices.

Definition quad_faces (iy ix : Z) : list (Z * Z * Z) :=
  let a := iy * (w + 1) + (ix + 1) in
  let b := iy * (w + 1) + ix in
  let c := (iy + 1) * (w + 1) + ix in
  let d := (iy + 1) * (w + 1) + (ix + 1) in
  (if decide (iy ≠ 0) then [(a, b, d)] else []) ++
  (if decide (iy ≠ h - 1) then [(b, c, d)] else []).

Definition all_faces : list (Z * Z * Z) :=
  seqZ 0 h ≫= λ iy, seqZ 0 w ≫= quad_faces iy.

Lemma quad_body_closed iy ix raw :
  0 ≤ iy < h → 0 ≤ ix < w →
  quad_body id (sphere_grid w h) h iy ix raw = Some (raw ++ quad_indices iy ix).
Proof.
  intros Hiy Hix. unfold quad_body, quad_indices.
  rewrite !grid_at_sphere by lia. simpl.
  repeat case_decide; by rewrite <- ?app_assoc, ?app_nil_r.
Qed.

Lemma emit_indices_closed :
  emit_indices id (sphere_grid w h) w h = Some all_indices.
Proof.
  unfold emit_indices.
  destruct (for_ltM_inv (λ iy raw, raw = seqZ 0 iy ≫= row_indices)
              (λ iy, for_ltM 0 w (quad_body id (sphere_grid w h) h iy)) 0 h [])
    as (raw & -> & ->); [lia | done | | done].
  intros iy raw Hiy ->.
  destruct (for_ltM_inv
              (λ ix raw, raw = (seqZ 0 iy ≫= row_indices)
                               ++ (seqZ 0 ix ≫= quad_indices iy))
              (quad_body id (sphere_grid w h) h iy) 0 w
              (seqZ 0 iy ≫= row_indices))
    as (raw & Hrun & ->); [lia | by rewrite app_nil_r | |].
  - intros ix raw Hix ->. eexists. split; [by apply quad_body_closed |].
    rewrite seqZ_snoc_bind by lia. by rewrite app_assoc.
  - exists ((seqZ 0 iy ≫= row_indices) ++ (seqZ 0 w ≫= quad_indices iy)).
    split; [done |]. by rewrite seqZ_snoc_bind by lia.
Qed.

Lemma all_indices_faces : triangles all_indices = all_faces.
Proof.
  unfold all_indices, all_faces.
  rewrite <- (app_nil_r (seqZ 0 h ≫= row_indices)).
  rewrite (triangles_bind row_indices (λ iy, seqZ 0 w ≫= quad_faces iy));
    [by rewrite app_nil_r |].
  intros iy r. unfold row_indices.
  apply triangles_bind. intros ix r'. unfold quad_indices, quad_faces.
  by repeat case_decide.
Qed.

Lemma all_faces_distinct :
  Forall (λ '(a, b, c), a ≠ b ∧ b ≠ c ∧ a ≠ c) all_faces.
Proof.
  unfold all_faces. apply Forall_bind, Forall_seqZ. intros iy Hiy. simpl.
  apply Forall_bind, Forall_seqZ. intros ix Hix. simpl.
  unfold quad_faces. repeat case_decide; repeat constructor; nia.
Qed.

(** The vertices that some triangle names: all but the last of ring 0 and
    the first of ring [h]. *)
Lemma elem_of_all_indices k :
  k ∈ all_indices ↔ 0 ≤ k < (w + 1) * (h + 1) ∧ k ≠ w ∧ k ≠ h * (w + 1).
Proof.
  unfold all_indices, row_indices. split.
  - intros (iy & (ix & Hk & Hix)%list_elem_of_bind & Hiy)%list_elem_of_bind.
    apply elem_of_seqZ in Hix, Hiy. unfold quad_indices in Hk.
    repeat case_decide; simpl in Hk;
      rewrite ?elem_of_cons, ?elem_of_nil in Hk; nia.
  - intros (Hk & Hkw & Hkh).
    pose proof (Z.div_mod k (w + 1) ltac:(lia)) as Hdm.
    pose proof (Z.mod_pos_bound k (w + 1) ltac:(lia)) as Hm.
    set (ky := k / (w + 1)) in *. set (kx := k mod (w + 1)) in *.
    assert (0 ≤ ky ≤ h) as Hky by nia.
    assert (∀ iy ix, 0 ≤ iy < h → 0 ≤ ix < w → k ∈ quad_indices iy ix →
              k ∈ seqZ 0 h ≫= (λ iy, seqZ 0 w ≫= quad_indices iy)) as Hin.
    { intros iy ix Hiy Hix Hq. apply list_elem_of_bind. exists iy.
      split; [| apply elem_of_seqZ; lia].
      apply list_elem_of_bind. exists ix. split; [done |].
      apply elem_of_seqZ. lia. }
    destruct (decide (ky = h)) as [Hh' | Hnh].
    + (* on the last ring: corner d of the quad to the upper left *)
      apply (Hin (h - 1) (kx - 1)); [lia | nia |].
      unfold quad_indices. rewrite decide_True by lia.
      rewrite elem_of_app. left. rewrite !elem_of_cons. right. right. left. nia.
    + destruct (decide (kx = w)) as [Hxw | Hxw].
      * (* on the seam, not on ring 0: corner a of the quad to the left *)
        apply (Hin ky (w - 1)); [lia | lia |].
        unfold quad_indices. rewrite decide_True by nia.
        rewrite elem_of_app. left. rewrite !elem_of_cons. left. nia.
      * (* corner b of its own quad *)
        apply (Hin ky kx); [lia | lia |].
        unfold quad_indices. rewrite elem_of_app.
        destruct (decide (ky = 0)) as [Hk0 | Hk0].
        -- right. rewrite decide_True by lia. rewrite !elem_of_cons. left. nia.
        -- left. rewrite decide_True by lia. rewrite !elem_of_cons.
           right. left. nia.
Qed.

End Triangles.

Lemma create_indices_closed `{Platform}
    (radius : float) (widthSegments heightSegments : Z) (randomness : float) m :
  let w := Z.max 3 widthSegments in
  let h := Z.max 2 heightSegments in
  create radius widthSegments heightSegments randomness = Some m →
  indices m = to_uint16 <$> all_indices w h ∧
  ((w + 1) * (h + 1) ≤ 65536 → indices m = all_indices w h).
Proof.
  intros w h Hm.
  pose proof (create_cases radius widthSegments heightSegments randomness) as Hc.
  rewrite Hm in Hc. destruct Hc as (_ & _ & raw & Hraw & [_ Hb _] & Hind).
  destruct (clamp_bounds widthSegments heightSegments) as [Hw Hh].
  rewrite generate_vertices_grid, emit_indices_closed in Hraw by done.
  injection Hraw as <-. unfold clampW, clampH, vertexCount in *.
  fold w h in Hw, Hh, Hb, Hind |- *.
  split; [done |]. intros Hsmall. rewrite Hind.
  rewrite <- (list_fmap_id (all_indices w h)) at 2.
  apply Forall_fmap_ext. eapply Forall_impl; [exact Hb |].
  intros x Hx. simpl in *. unfold to_uint16. apply Z.mod_small. lia.
Qed.

(** X1.  The index array is, quad by quad in row-major order, the triangle
    (a, b, d) unless iy = 0 followed by the triangle (b, c, d) unless
    iy = heightSegments - 1, where a, b, c, d are the vertex numbers
    iy * (w + 1) + ix + 1, iy * (w + 1) + ix, (iy + 1) * (w + 1) + ix and
    (iy + 1) * (w + 1) + ix + 1, each reduced modulo 65536. *)
Theorem X1_indices_closed_form `{Platform}
    (radius : float) (widthSegments heightSegments : Z) (randomness : float) :
  let w := Z.max 3 widthSegments in
  let h := Z.max 2 heightSegments in
  match create radius widthSegments heightSegments randomness with
  | Some m =>
      indices m =
        (λ a, a mod 65536) <$>
          (seqZ 0 h ≫= λ iy, seqZ 0 w ≫= λ ix,
             (if decide (iy ≠ 0)
              then [iy * (w + 1) + (ix + 1); iy * (w + 1) + ix;
                    (iy + 1) * (w + 1) + (ix + 1)]
              else []) ++
             (if decide (iy ≠ h - 1)
              then [iy * (w + 1) + ix; (iy + 1) * (w + 1) + ix;
                    (iy + 1) * (w + 1) + (ix + 1)]
              else []))
  | None => INT_MAX < (w + 1) * (h + 1) * 8
  end.
Proof.
  intros w h. on_create m Hm Hc.
  exact (proj1 (create_indices_closed _ _ _ _ m Hm)).
Qed.

(** X2.  Read three by three, the index array loses nothing, and while the
    mesh has at most 65536 vertices no triangle names a vertex twice. *)
Theorem X2_triangles_not_degenerate `{Platform}
    (radius : float) (widthSegments heightSegments : Z) (randomness : float) :
  let w := Z.max 3 widthSegments in
  let h := Z.max 2 heightSegments in
  match create radius widthSegments heightSegments randomness with
  | Some m =>
      triangles (indices m) ≫= flatten_triangle = indices m ∧
      ((w + 1) * (h + 1) ≤ 65536 →
         Forall (λ '(a, b, c), a ≠ b ∧ b ≠ c ∧ a ≠ c) (triangles (indices m)))
  | None => INT_MAX < (w + 1) * (h + 1) * 8
  end.
Proof.
  intros w h. on_create m Hm Hc.
  destruct (clamp_bounds widthSegments heightSegments) as [Hw Hh].
  split.
  - apply (triangles_flatten (Z.to_nat (2 * (h - 1) * w))).
    pose proof (create_indices_length _ _ _ _ m Hm) as Hlen.
    fold w h in Hlen. unfold clampW, clampH in *. fold w h in Hw, Hh. nia.
  - intros Hsmall.
    rewrite (proj2 (create_indices_closed _ _ _ _ m Hm) Hsmall).
    rewrite all_indices_faces. by apply all_faces_distinct.
Qed.

(** X3.  While the mesh has at most 65536 vertices, the vertices that the
    index array refers to are all of them but two: the last vertex of ring 0
    (number w) and the first vertex of ring heightSegments (number
    h * (w + 1)).  These two are stored and never drawn. *)
Theorem X3_referenced_vertices `{Platform}
    (radius : float) (widthSegments heightSegments : Z) (randomness : float) :
  let w := Z.max 3 widthSegments in
  let h := Z.max 2 heightSegments in
  match create radius widthSegments heightSegments randomness with
  | Some m =>
      (w + 1) * (h + 1) ≤ 65536 →
      ∀ k, k ∈ indices m ↔
           0 ≤ k < (w + 1) * (h + 1) ∧ k ≠ w ∧ k ≠ h * (w + 1)
  | None => INT_MAX < (w + 1) * (h + 1) * 8
  end.
Proof.
  intros w h. on_create m Hm Hc. intros Hsmall k.
  destruct (clamp_bounds widthSegments heightSegments) as [Hw Hh].
  rewrite (proj2 (create_indices_closed _ _ _ _ m Hm) Hsmall).
  by apply elem_of_all_indices.
Qed.

(** X4.  When widthSegments + 1 (clamped) is a multiple of 65536, the cast to
    [uint16_t] makes the vertex below a vertex and the vertex itself the same
    entry: every triangle of the index array names one vertex twice. *)
Theorem X4_truncation_degenerates `{Platform}
    (radius : float) (widthSegments heightSegments : Z) (randomness : float) :
  let w := Z.max 3 widthSegments in
  let h := Z.max 2 heightSegments in
  match create radius widthSegments heightSegments randomness with
  | Some m =>
      (w + 1) mod 65536 = 0 →
      Forall (λ '(a, b, c), a = c ∨ a = b) (triangles (indices m))
  | None => INT_MAX < (w + 1) * (h + 1) * 8
  end.
Proof.
  intros w h. on_create m Hm Hc. intros Hmod.
  destruct (clamp_bounds widthSegments heightSegments) as [Hw Hh].
  rewrite (proj1 (create_indices_closed _ _ _ _ m Hm)). fold w h.
  rewrite triangles_fmap, all_indices_faces, Forall_fmap.
  assert (∀ iy ix, to_uint16 ((iy + 1) * (w + 1) + ix) = to_uint16 (iy * (w + 1) + ix))
    as Hdown.
  { intros iy ix. unfold to_uint16.
    replace ((iy + 1) * (w + 1) + ix) with (iy * (w + 1) + ix + (w + 1)) by lia.
    rewrite Z.add_mod, Hmod, Z.add_0_r, Z.mod_mod by lia. done. }
  unfold all_faces. apply Forall_bind, Forall_seqZ. intros iy Hiy. simpl.
  apply Forall_bind, Forall_seqZ. intros ix Hix. simpl.
  unfold quad_faces.
  repeat case_decide; simpl; repeat apply List.Forall_cons;
    try apply List.Forall_nil; rewrite ?Hdown; auto.
Qed.

(** ** The vertex buffer in closed form *)

Section Draws.

Context `{Platform}.
Variables (radius randomness : float) (w h : Z).
Hypothesis (Hw : 3 ≤ w) (Hh : 2 ≤ h).

(** The engine of line 37 after [n] draws, and the number it draws next. *)
Definition engine (n : nat) : rng_state :=
  Nat.iter n (λ g, (dist g).2) (mt19937 12345).

Definition nth_draw (n : nat) : float := (dist (engine n)).1.

(** The draws made before ring [iy]: one for ring 0 and [w] for each ring
    between the poles. *)
Definition ring_start (iy : Z) : Z :=
  if decide (iy ≤ 0) then 0
  else if decide (iy ≤ h) then 1 + (iy - 1) * w
  else 2 + (h - 1) * w.

(** The draws made in ring [iy] before column [ix]. *)
Definition ring_draws (iy ix : Z) : Z :=
  if decide (iy = 0 ∨ iy = h) then Z.min ix 1 else Z.min ix w.

Definition draws_before (iy ix : Z) : Z := ring_start iy + ring_draws iy ix.

(** The draw that the position of vertex [(iy, ix)] is computed from. *)
Definition draw_of (iy ix : Z) : Z := ring_start iy + source_column w h iy ix.

(** The position of vertex [(iy, ix)]. *)
Definition point (iy ix : Z) : vec3 :=
  sphere_point radius randomness (nth_draw (Z.to_nat (draw_of iy ix)))
    (column_u w (source_column w h iy ix)) (ring_v h iy).

Definition stored (vs : list float) (iy ix : Z) : Prop :=
  record_at vs (iy * (w + 1) + ix) = expected_record w h (point iy ix) iy ix.

(** The state before column [ix] of ring [iy]. *)
Record DrawInv (iy ix : Z) (s : GenState) : Prop := {
  di_length : Z.of_nat (length (gs_vertices s)) = 9 * (iy * (w + 1) + ix);
  di_rng : gs_rng s = engine (Z.to_nat (draws_before iy ix));
  di_stored : ∀ j k, 0 ≤ j → 0 ≤ k ≤ w → j < iy ∨ j = iy ∧ k < ix →
                stored (gs_vertices s) j k;
  di_first : 1 ≤ ix → gs_firstVertex s = point iy 0;
  di_pole : 1 ≤ ix → iy = 0 ∨ iy = h → gs_vertex s = point iy 0;
}.

Lemma engine_next n :
  0 ≤ n → (dist (engine (Z.to_nat n))).2 = engine (Z.to_nat (n + 1)).
Proof.
  intros Hn. by replace (Z.to_nat (n + 1)) with (Datatypes.S (Z.to_nat n)) by lia.
Qed.

Lemma ring_start_nonneg iy : 0 ≤ iy ≤ h + 1 → 0 ≤ ring_start iy.
Proof. intros Hiy. unfold ring_start. repeat case_decide; nia. Qed.

Lemma point_seam iy : point iy w = point iy 0.
Proof.
  unfold point, draw_of, source_column.
  rewrite (decide_True (P := w = w ∨ _)) by lia. by case_decide.
Qed.

Lemma point_pole iy ix : iy = 0 ∨ iy = h → point iy ix = point iy 0.
Proof.
  intros Hiy. unfold point, draw_of, source_column.
  by rewrite !decide_True by lia.
Qed.

Lemma stored_app vs e iy ix :
  0 ≤ iy → 0 ≤ ix →
  9 * (iy * (w + 1) + ix) + 9 ≤ Z.of_nat (length vs) →
  stored vs iy ix → stored (vs ++ e) iy ix.
Proof.
  intros Hiy Hix Hlen Hs. unfold stored.
  by rewrite record_at_app_old by nia.
Qed.

Lemma column_body_draws iy ix s :
  0 ≤ iy ≤ h → 0 ≤ ix ≤ w →
  DrawInv iy ix s →
  DrawInv iy (ix + 1)
    (column_body radius randomness w h iy
       (ring_v h iy) (ring_uOffset w h iy) ix s).
Proof.
  intros Hiy Hix [Hlen Hrng Hst Hfirst Hpole].
  pose proof (ring_start_nonneg iy ltac:(lia)) as Hrs.
  assert (∀ s1 : GenState,
    gs_vertices s1 = gs_vertices s →
    gs_vertex s1 = point iy ix →
    gs_firstVertex s1 = point iy 0 →
    gs_rng s1 = engine (Z.to_nat (draws_before iy (ix + 1))) →
    DrawInv iy (ix + 1)
      {| gs_vertices :=
           gs_vertices s1 ++
           vertex_record (gs_vertex s1)
             (vec3_normalize (vec3_copy (gs_vertex s1)))
             (column_u w ix) (ring_uOffset w h iy) (ring_v h iy);
         gs_firstVertex := gs_firstVertex s1;
         gs_vertex := gs_vertex s1;
         gs_normal := vec3_normalize (vec3_copy (gs_vertex s1));
         gs_index := gs_index s1 + 1;
         gs_grid := gs_grid s1;
         gs_rng := gs_rng s1;
         gs_verticesRow := gs_verticesRow s1 ++ [gs_index s1] |}) as Hpush.
  { intros s1 Hvs Hv Hf Hr. rewrite vec3_copy_id.
    constructor; simpl.
    - rewrite Hvs, length_app. simpl. lia.
    - done.
    - intros j k Hj Hk Hjk. rewrite Hvs.
      destruct (decide (j = iy ∧ k = ix)) as [[-> ->] | Hne].
      + unfold stored. rewrite record_at_app_new; [| nia | lia | done].
        by rewrite Hv.
      + apply stored_app; [lia | lia | nia |]. apply Hst; [lia | lia | lia].
    - done.
    - intros _ Hp. by rewrite Hv, point_pole. }
  unfold column_body, place_vertex.
  destruct (decide (ix = w)) as [-> | Hne].
  { apply Hpush; simpl; try done.
    - rewrite vec3_copy_id, point_seam. apply Hfirst. lia.
    - apply Hfirst. lia.
    - rewrite Hrng. do 2 f_equal. unfold draws_before, ring_draws.
      case_decide; lia. }
  destruct (decide (ix = 0 ∨ iy ≠ 0 ∧ iy ≠ h)) as [Hfresh | Hkeep].
  - assert (draws_before iy ix = draw_of iy ix) as Hnum.
    { unfold draws_before, draw_of, ring_draws, source_column.
      repeat case_decide; lia. }
    assert (source_column w h iy ix = ix) as Hsrc.
    { unfold source_column. case_decide; lia. }
    assert (draws_before iy (ix + 1) = draws_before iy ix + 1) as Hstep.
    { unfold draws_before, ring_draws. case_decide; lia. }
    destruct (dist (gs_rng s)) as [d g] eqn:Hd.
    assert (d = nth_draw (Z.to_nat (draw_of iy ix))) as ->.
    { unfold nth_draw. by rewrite <- Hnum, <- Hrng, Hd. }
    assert (g = engine (Z.to_nat (draws_before iy (ix + 1)))) as ->.
    { rewrite Hstep, <- engine_next, <- Hrng, Hd by (rewrite Hnum;
        unfold draw_of, source_column; case_decide; lia). done. }
    apply Hpush; simpl; try done.
    + unfold point. by rewrite Hsrc.
    + destruct (decide (ix = 0)) as [-> | Hix0].
      * rewrite vec3_copy_id. unfold point. by rewrite Hsrc.
      * apply Hfirst. lia.
  - apply Hpush; try done.
    + rewrite point_pole by lia. apply Hpole; lia.
    + apply Hfirst. lia.
    + rewrite Hrng. do 2 f_equal. unfold draws_before, ring_draws.
      case_decide; lia.
Qed.

Lemma ring_body_draws iy s :
  0 ≤ iy ≤ h →
  DrawInv iy 0 s →
  DrawInv (iy + 1) 0 (ring_body radius randomness w h iy s).
Proof.
  intros Hiy Hinv. unfold ring_body.
  assert (DrawInv iy 0 (new_row s)) as Hinv0.
  { destruct Hinv. by constructor. }
  pose proof (for_le_inv (DrawInv iy)
    (column_body radius randomness w h iy
       (ring_v h iy) (ring_uOffset w h iy)) 0 w (new_row s)
    ltac:(lia) Hinv0) as Hloop.
  simpl in Hloop.
  set (s1 := for_le 0 w _ (new_row s)) in *.
  assert (DrawInv iy (w + 1) s1) as Hs1.
  { apply Hloop. intros j t Hj Ht. by apply column_body_draws. }
  clear Hloop. destruct Hs1 as [Hlen Hrng Hst _ _].
  constructor; simpl; try (intros; lia).
  - rewrite Hrng. f_equal. f_equal.
    unfold draws_before, ring_draws, ring_start. repeat case_decide; lia.
  - intros j k Hj Hk Hjk. apply Hst; [lia | lia | lia].
Qed.

(** The state after the last ring. *)
Lemma generate_vertices_draws :
  DrawInv (h + 1) 0 (generate_vertices radius randomness w h).
Proof.
  unfold generate_vertices.
  apply (for_le_inv (λ iy, DrawInv iy 0)); [lia | |].
  - constructor; simpl; try done; intros; lia.
  - intros j t Hj Ht. by apply ring_body_draws.
Qed.

End Draws.

Lemma create_stored `{Platform}
    (radius : float) (widthSegments heightSegments : Z) (randomness : float) m :
  let w := Z.max 3 widthSegments in
  let h := Z.max 2 heightSegments in
  create radius widthSegments heightSegments randomness = Some m →
  ∀ iy ix, 0 ≤ iy ≤ h → 0 ≤ ix ≤ w →
    record_at (vertices m) (iy * (w + 1) + ix) =
    expected_record w h (point radius randomness w h iy ix) iy ix.
Proof.
  intros w h Hm iy ix Hiy Hix.
  pose proof (create_cases radius widthSegments heightSegments randomness) as Hc.
  rewrite Hm in Hc. destruct Hc as (_ & -> & _).
  destruct (clamp_bounds widthSegments heightSegments) as [Hw Hh].
  destruct (generate_vertices_draws radius randomness _ _ Hw Hh)
    as [_ _ Hst _ _].
  apply Hst; unfold h, w, clampH, clampW in *; lia.
Qed.

(** X5.  Which draw a vertex comes from.  Ring 0 takes the first number the
    engine draws, every ring between the poles the next widthSegments
    numbers, one per column, and the last ring one more; the vertex of ring
    iy, column ix is the point computed at lines 59-63 from the draw so
    numbered, at the longitude of its source column (column 0 on the seam
    and on the pole rings). *)
Theorem X5_positions_by_draw `{Platform}
    (radius : float) (widthSegments heightSegments : Z) (randomness : float) :
  let w := Z.max 3 widthSegments in
  let h := Z.max 2 heightSegments in
  match create radius widthSegments heightSegments randomness with
  | Some m =>
      ∀ iy ix, 0 ≤ iy ≤ h → 0 ≤ ix ≤ w →
        let sx := if decide (ix = w ∨ iy = 0 ∨ iy = h) then 0 else ix in
        let n := (if decide (iy = 0) then 0 else 1 + (iy - 1) * w) + sx in
        let p := sphere_point radius randomness (nth_draw (Z.to_nat n))
                   (F32.div (F32.of_int sx) (F32.of_int w))
                   (F32.div (F32.of_int iy) (F32.of_int h)) in
        position_at (vertices m) (iy * (w + 1) + ix) = [c0 p; c1 p; c2 p]
  | None => INT_MAX < (w + 1) * (h + 1) * 8
  end.
Proof.
  intros w h. on_create m Hm Hc. intros iy ix Hiy Hix sx n p.
  unfold position_at.
  pose proof (create_stored _ _ _ _ m Hm iy ix Hiy Hix) as Hrec.
  cbv zeta in Hrec. fold w h in Hrec.
  assert (point radius randomness w h iy ix = p) as Hp.
  { unfold point, p, draw_of, source_column, ring_start, ring_v, column_u.
    fold sx. do 3 f_equal. unfold n. repeat case_decide; lia. }
  rewrite Hrec, Hp. done.
Qed.

(** X6.  The normal stored with a vertex is [vec3_normalize] of the position
    stored with it: the position divided by its computed length, or the
    position itself when that length is not above [1e-8f]. *)
Theorem X6_normal_of_position `{Platform}
    (radius : float) (widthSegments heightSegments : Z) (randomness : float) :
  let w := Z.max 3 widthSegments in
  let h := Z.max 2 heightSegments in
  match create radius widthSegments heightSegments randomness with
  | Some m =>
      ∀ k, 0 ≤ k < (w + 1) * (h + 1) →
        ∃ p, position_at (vertices m) k = [c0 p; c1 p; c2 p] ∧
             normal_at (vertices m) k =
               [c0 (vec3_normalize p); c1 (vec3_normalize p);
                c2 (vec3_normalize p)]
  | None => INT_MAX < (w + 1) * (h + 1) * 8
  end.
Proof.
  intros w h. on_create m Hm Hc. intros k Hk.
  destruct (clamp_bounds widthSegments heightSegments) as [Hw Hh].
  unfold clampW, clampH in *. fold w h in Hw, Hh.
  pose proof (Z.div_mod k (w + 1) ltac:(lia)) as Hdm.
  pose proof (Z.mod_pos_bound k (w + 1) ltac:(lia)) as Hmod.
  assert (0 ≤ k / (w + 1) ≤ h) as Hiy by nia.
  pose proof (create_stored _ _ _ _ m Hm (k / (w + 1)) (k `mod` (w + 1))
                Hiy ltac:(fold w; lia)) as Hrec.
  cbv zeta in Hrec. fold w h in Hrec.
  replace (k / (w + 1) * (w + 1) + k `mod` (w + 1)) with k in Hrec by lia.
  exists (point radius randomness w h (k / (w + 1)) (k `mod` (w + 1))).
  unfold position_at, normal_at. by rewrite Hrec.
Qed.

(** ** Two invocations

    An invocation of [Sphere::create] runs against a C++ runtime.  Two
    invocations share the parameter tuple, the cosine and the sine of the
    library, and the numbers that an engine seeded with 12345 draws; the
    engine itself is built anew inside each of them (line 37), so that
    neither its representation nor the state in which an invocation leaves
    it is shared. *)

(** A buffer is the records it holds. *)
Lemma records_ext n (l1 l2 : list float) :
  length l1 = (9 * n)%nat → length l2 = (9 * n)%nat →
  (∀ k, 0 ≤ k < Z.of_nat n → record_at l1 k = record_at l2 k) →
  l1 = l2.
Proof.
  revert l1 l2. induction n as [|n IH]; intros l1 l2 H1 H2 Hrec.
  - destruct l1, l2; simpl in *; done || lia.
  - rewrite <- (take_drop 9 l1), <- (take_drop 9 l2). f_equal.
    + apply (Hrec 0). lia.
    + apply IH; rewrite ?length_drop; try lia.
      intros k Hk. specialize (Hrec (k + 1) ltac:(lia)).
      unfold record_at in *. rewrite !drop_drop.
      by replace (9 + Z.to_nat (9 * k))%nat with (Z.to_nat (9 * (k + 1))) by lia.
Qed.

Section TwoRuntimes.

Variables P1 P2 : Platform.
Variables (radius randomness : float) (w h : Z).
Hypothesis (Hw : 3 ≤ w) (Hh : 2 ≤ h).
Hypothesis Hcos : ∀ x, cosf (Platform := P1) x = cosf (Platform := P2) x.
Hypothesis Hsin : ∀ x, sinf (Platform := P1) x = sinf (Platform := P2) x.
Hypothesis Hdraw :
  ∀ n : nat, Z.of_nat n < (h - 1) * w + 2 →
    nth_draw (H := P1) n = nth_draw (H := P2) n.

(** Every draw that a vertex is computed from is among the first
    [(h - 1) * w + 2]. *)
Lemma draw_of_bound iy ix :
  0 ≤ iy ≤ h → 0 ≤ ix ≤ w → 0 ≤ draw_of w h iy ix < (h - 1) * w + 2.
Proof.
  intros Hiy Hix. unfold draw_of, ring_start, source_column.
  repeat case_decide; nia.
Qed.

Lemma point_agree iy ix :
  0 ≤ iy ≤ h → 0 ≤ ix ≤ w →
  point (H := P1) radius randomness w h iy ix
  = point (H := P2) radius randomness w h iy ix.
Proof.
  intros Hiy Hix. pose proof (draw_of_bound iy ix Hiy Hix) as Hb.
  unfold point, sphere_point.
  rewrite Hdraw by lia. by rewrite !Hcos, !Hsin.
Qed.

End TwoRuntimes.

(** C5.  Determinism: two invocations of [Sphere::create] on the same
    parameter tuple return bit-identical vertex arrays and bit-identical
    index arrays, and either both return or neither does.  The two
    invocations may run against different runtimes: all that they have to
    share is the cosine, the sine, and the first
    (heightSegments - 1) * widthSegments + 2 numbers (clamped counts) drawn
    by an engine seeded with the constant 12345, which each invocation
    builds for itself.  Two invocations in one process are the case of
    equal runtimes. *)
Theorem C5_determinism (P1 P2 : Platform)
    (radius : float) (widthSegments heightSegments : Z) (randomness : float) :
  let w := Z.max 3 widthSegments in
  let h := Z.max 2 heightSegments in
  (∀ x, cosf (Platform := P1) x = cosf (Platform := P2) x) →
  (∀ x, sinf (Platform := P1) x = sinf (Platform := P2) x) →
  (∀ n : nat, Z.of_nat n < (h - 1) * w + 2 →
     (dist (Platform := P1)
        (Nat.iter n (λ g, (dist g).2) (mt19937 (Platform := P1) 12345))).1 =
     (dist (Platform := P2)
        (Nat.iter n (λ g, (dist g).2) (mt19937 (Platform := P2) 12345))).1) →
  match create (H := P1) radius widthSegments heightSegments randomness,
        create (H := P2) radius widthSegments heightSegments randomness with
  | Some m1, Some m2 => vertices m1 = vertices m2 ∧ indices m1 = indices m2
  | None, None => INT_MAX < (w + 1) * (h + 1) * 8
  | _, _ => False
  end.
Proof.
  intros w h Hcos Hsin Hdraw.
  destruct (clamp_bounds widthSegments heightSegments) as [Hw Hh].
  pose proof (create_cases (H := P1) radius widthSegments heightSegments
                randomness) as Hc1.
  pose proof (create_cases (H := P2) radius widthSegments heightSegments
                randomness) as Hc2.
  unfold clampW, clampH in *. fold w h in Hw, Hh, Hc1, Hc2.
  destruct (create (H := P1) radius widthSegments heightSegments randomness)
    as [m1|] eqn:Hm1;
  destruct (create (H := P2) radius widthSegments heightSegments randomness)
    as [m2|] eqn:Hm2;
    [| destruct Hc1 as (Hfit & _); lia | destruct Hc2 as (Hfit & _); lia
     | exact Hc1].
  clear Hc1 Hc2. split.
  - pose proof (create_vertices_length _ _ _ _ m1 Hm1) as Hl1.
    pose proof (create_vertices_length _ _ _ _ m2 Hm2) as Hl2.
    pose proof (create_stored _ _ _ _ m1 Hm1) as Hr1.
    pose proof (create_stored _ _ _ _ m2 Hm2) as Hr2.
    cbv zeta in Hr1, Hr2. fold w h in Hl1, Hl2, Hr1, Hr2.
    apply (records_ext (Z.to_nat ((w + 1) * (h + 1)))); [nia | nia |].
    intros k Hk.
    pose proof (Z.div_mod k (w + 1) ltac:(lia)) as Hdm.
    pose proof (Z.mod_pos_bound k (w + 1) ltac:(lia)) as Hmod.
    set (iy := k / (w + 1)) in *. set (ix := k `mod` (w + 1)) in *.
    assert (0 ≤ iy ≤ h) as Hiy by nia.
    replace k with (iy * (w + 1) + ix) by lia.
    rewrite Hr1, Hr2 by lia. f_equal.
    apply point_agree; try done; lia.
  - rewrite (proj1 (create_indices_closed _ _ _ _ m1 Hm1)).
    by rewrite (proj1 (create_indices_closed _ _ _ _ m2 Hm2)).
Qed.

(** ** The sphere without perturbation *)

(** [radius + dist(rng) * 2.0f * randomness * radius] at [randomness] zero:
    the product is a zero, and adding a zero to a non-zero float gives the
    float back. *)
Lemma perturbed_radius_zero radius randomness d :
  draw_ok d → F32.is_zero randomness = true →
  F32.is_finite radius = true → F32.is_zero radius = false →
  F32.add radius (F32.mul (F32.mul (F32.mul d F32.two) randomness) radius)
  = radius.
Proof.
  intros Hd Hz Hf Hnz.
  assert (F32.is_finite (F32.mul d F32.two) = true) as Hd2.
  { apply (finite_le_is_finite _ 1 (-1 + 1)).
    apply (mul_pow2 d F32.two (-1) 1); [by apply draw_le_half | | lia ..].
    apply two_le. }
  pose proof (mul_zero_l _ radius (mul_zero_r _ _ Hd2 Hz) Hf) as Hj.
  destruct radius as [| | | s m e]; try done.
  by destruct (F32.mul (F32.mul (F32.mul d F32.two) randomness)
                 (S754_finite s m e)).
Qed.

(** X7.  With [randomness] zero and a finite non-zero [radius], no draw
    enters the mesh: the vertex of ring iy, column ix sits at
    (-radius * cos(a) * sin(b), radius * cos(b), radius * sin(a) * sin(b)),
    with a = u * pi * 2 for the source column and b = v * pi, all in
    binary32, whatever numbers of [-0.5, 0.5] the engine draws. *)
Theorem X7_randomness_zero `{Platform}
    (radius : float) (widthSegments heightSegments : Z) (randomness : float) :
  (∀ g, draw_ok (dist g).1) →
  F32.is_zero randomness = true →
  F32.is_finite radius = true → F32.is_zero radius = false →
  let w := Z.max 3 widthSegments in
  let h := Z.max 2 heightSegments in
  match create radius widthSegments heightSegments randomness with
  | Some m =>
      ∀ iy ix, 0 ≤ iy ≤ h → 0 ≤ ix ≤ w →
        let sx := if decide (ix = w ∨ iy = 0 ∨ iy = h) then 0 else ix in
        let a := F32.mul (F32.mul (F32.div (F32.of_int sx) (F32.of_int w))
                            F32.pi) F32.two in
        let b := F32.mul (F32.div (F32.of_int iy) (F32.of_int h)) F32.pi in
        position_at (vertices m) (iy * (w + 1) + ix) =
          [ F32.mul (F32.mul (F32.neg radius) (cosf a)) (sinf b);
            F32.mul radius (cosf b);
            F32.mul (F32.mul radius (sinf a)) (sinf b) ]
  | None => INT_MAX < (w + 1) * (h + 1) * 8
  end.
Proof.
  intros Hdraw Hz Hf Hnz w h. on_create m Hm Hc.
  intros iy ix Hiy Hix sx a b.
  pose proof (create_stored _ _ _ _ m Hm iy ix Hiy Hix) as Hrec.
  cbv zeta in Hrec. fold w h in Hrec.
  unfold position_at. rewrite Hrec.
  unfold point, sphere_point, source_column, ring_v, column_u. fold sx.
  rewrite (perturbed_radius_zero radius randomness
             (nth_draw (Z.to_nat (draw_of w h iy ix))) (Hdraw _) Hz Hf Hnz).
  done.
Qed.

(** ** The corners of the texture *)

Lemma div_self s m e :
  F32.div (S754_finite s m e) (S754_finite s m e) = F32.one.
Proof.
  unfold F32.div, SFdiv, SFdiv_core_binary. cbv zeta.
  rewrite !Z.sub_diag, fexp32.
  change (Z.min (Z.max (0 - 24) (-149)) 0) with (-24).
  change (0 - -24) with 24. cbv iota.
  rewrite Z.shiftl_mul_pow2, (Z.mul_comm (Z.pos m)) by lia.
  assert (Z.div_eucl (2 ^ 24 * Z.pos m) (Z.pos m) = (2 ^ 24, 0)) as ->.
  { pose proof (Z.div_mul (2 ^ 24) (Z.pos m) ltac:(lia)) as Hq.
    pose proof (Z.mod_mul (2 ^ 24) (Z.pos m) ltac:(lia)) as Hr.
    unfold Z.div, Z.modulo in Hq, Hr.
    destruct (Z.div_eucl (2 ^ 24 * Z.pos m) (Z.pos m)) as [q r].
    simpl in Hq, Hr. by subst. }
  rewrite Bool.xorb_nilpotent.
  assert (new_location (Z.pos m) 0 = loc_Exact) as ->.
  { unfold new_location. by destruct (Z.even (Z.pos m)). }
  vm_compute. reflexivity.
Qed.

Lemma of_int_positive n :
  1 ≤ n < 2 ^ 31 → ∃ m e, F32.of_int n = S754_finite false m e.
Proof.
  intros Hn.
  destruct (of_int_between n 0 ltac:(lia) ltac:(simpl; lia))
    as (m & e & Heq & _).
  by exists m, e.
Qed.

(** [static_cast<float>(n) / static_cast<float>(n)] is exactly 1. *)
Lemma ratio_one n :
  1 ≤ n < 2 ^ 31 → F32.div (F32.of_int n) (F32.of_int n) = F32.one.
Proof.
  intros Hn. destruct (of_int_positive n Hn) as (m & e & ->).
  apply div_self.
Qed.

(** [static_cast<float>(0) / static_cast<float>(n)] is exactly +0. *)
Lemma ratio_zero n :
  1 ≤ n < 2 ^ 31 → F32.div (F32.of_int 0) (F32.of_int n) = F32.zero.
Proof.
  intros Hn. by destruct (of_int_positive n Hn) as (m & e & ->).
Qed.

(** The two texture coordinates of vertex number [k]. *)
Definition uv_at (vs : list float) (k : Z) : list float :=
  drop 7 (record_at vs k).

(** X8.  The texture coordinates reach the corners exactly: V is 1.0 on
    ring 0 and +0.0 on the last ring, and on every ring between the poles U
    is +0.0 in column 0 and 1.0 on the seam. *)
Theorem X8_uv_corners `{Platform}
    (radius : float) (widthSegments heightSegments : Z) (randomness : float) :
  let w := Z.max 3 widthSegments in
  let h := Z.max 2 heightSegments in
  match create radius widthSegments heightSegments randomness with
  | Some m =>
      (∀ ix, 0 ≤ ix ≤ w →
         (∃ u, uv_at (vertices m) (0 * (w + 1) + ix) = [u; F32.one]) ∧
         (∃ u, uv_at (vertices m) (h * (w + 1) + ix) = [u; F32.zero])) ∧
      (∀ iy, 0 < iy < h →
         (∃ v, uv_at (vertices m) (iy * (w + 1) + 0) = [F32.zero; v]) ∧
         (∃ v, uv_at (vertices m) (iy * (w + 1) + w) = [F32.one; v]))
  | None => INT_MAX < (w + 1) * (h + 1) * 8
  end.
Proof.
  intros w h. on_create m Hm Hc.
  destruct (clamp_bounds widthSegments heightSegments) as [Hw Hh].
  destruct Hc as (Hfit & _).
  unfold clampW, clampH, INT_MAX in *. fold w h in Hw, Hh, Hfit.
  assert (1 ≤ w < 2 ^ 31 ∧ 1 ≤ h < 2 ^ 31) as [Hw31 Hh31].
  { change (2 ^ 31) with 2147483648. nia. }
  pose proof (create_stored _ _ _ _ m Hm) as Hrec.
  cbv zeta in Hrec. fold w h in Hrec.
  unfold uv_at. split.
  - intros ix Hix. split.
    + rewrite Hrec by lia. eexists.
      unfold expected_record, vertex_record, ring_v. simpl.
      by rewrite ratio_zero.
    + rewrite Hrec by lia. eexists.
      unfold expected_record, vertex_record, ring_v. simpl.
      by rewrite ratio_one.
  - intros iy Hiy. split.
    + rewrite Hrec by lia. eexists.
      unfold expected_record, vertex_record, column_u, ring_uOffset. simpl.
      rewrite !decide_False by lia. by rewrite ratio_zero.
    + rewrite Hrec by lia. eexists.
      unfold expected_record, vertex_record, column_u, ring_uOffset. simpl.
      rewrite !decide_False by lia. by rewrite ratio_one.
Qed.

(** ** [vec3_normalize] on vectors that are not finite *)

Definition is_nan (x : float) : bool :=
  match x with S754_nan => true | _ => false end.

Definition is_inf (x : float) : bool :=
  match x with S754_infinity _ => true | _ => false end.

(** The squared length computed at line 12. *)
Definition squared_length (v : vec3) : float :=
  F32.add (F32.add (F32.mul (c0 v) (c0 v)) (F32.mul (c1 v) (c1 v)))
          (F32.mul (c2 v) (c2 v)).

Lemma vec3_normalize_length v :
  vec3_normalize v =
  let len := F32.sqrt (squared_length v) in
  if F32.gt len F32.eps
  then Vec3 (F32.div (c0 v) len) (F32.div (c1 v) len) (F32.div (c2 v) len)
  else v.
Proof. reflexivity. Qed.

Lemma mul_nan x : is_nan x = true → F32.mul x x = S754_nan.
Proof. by destruct x. Qed.

Lemma add_nan_l x y : is_nan x = true → F32.add x y = S754_nan.
Proof. by destruct x. Qed.

Lemma add_nan_r x y : is_nan y = true → F32.add x y = S754_nan.
Proof. destruct y; try done. by destruct x. Qed.

Lemma squared_length_nan v :
  is_nan (c0 v) || is_nan (c1 v) || is_nan (c2 v) = true →
  squared_length v = S754_nan.
Proof.
  intros Hnan. unfold squared_length.
  apply orb_true_iff in Hnan as [Hnan | Hz].
  - apply add_nan_l. apply orb_true_iff in Hnan as [Hx | Hy].
    + by rewrite add_nan_l by (by rewrite mul_nan).
    + by rewrite add_nan_r by (by rewrite mul_nan).
  - apply add_nan_r. by rewrite mul_nan.
Qed.

(** A float that is not NaN and carries the sign [s]. *)
Definition signed (s : bool) (x : float) : Prop :=
  match x with
  | S754_nan => False
  | S754_zero s' | S754_infinity s' | S754_finite s' _ _ => s' = s
  end.

Lemma shr_fexp_nonneg m e l :
  0 ≤ m → 0 ≤ shr_m (shr_fexp F32.prec F32.emax m e l).1.
Proof.
  intros Hm. unfold shr_fexp, shr.
  destruct (fexp F32.prec F32.emax (Zdigits2 m + e) - e) as [|p|p]; simpl;
    rewrite ?shr_iter_m, ?shr_m_of_loc by (by rewrite shr_m_of_loc); try done.
  apply Z.div_pos; [done |]. apply pow2_pos. lia.
Qed.

Lemma round_aux_signed s m e l :
  0 ≤ m → signed s (binary_round_aux F32.prec F32.emax s m e l).
Proof.
  intros Hm. unfold binary_round_aux.
  pose proof (shr_fexp_nonneg m e l Hm) as H1.
  destruct (shr_fexp F32.prec F32.emax m e l) as [mrs' e']. simpl in H1.
  pose proof (round_nearest_even_bounds (shr_m mrs') (loc_of_shr_record mrs'))
    as Hr.
  pose proof (shr_fexp_nonneg
                (round_nearest_even (shr_m mrs') (loc_of_shr_record mrs'))
                e' loc_Exact ltac:(lia)) as H2.
  destruct (shr_fexp F32.prec F32.emax
              (round_nearest_even (shr_m mrs') (loc_of_shr_record mrs'))
              e' loc_Exact) as [mrs'' e'']. simpl in H2.
  destruct (shr_m mrs''); [done | by case_match | lia].
Qed.

Lemma mul_self_signed x : is_nan x = false → signed false (F32.mul x x).
Proof.
  destruct x as [[] | [] | | s m e]; try done. intros _.
  unfold F32.mul. simpl SFmul. rewrite Bool.xorb_nilpotent.
  apply round_aux_signed. lia.
Qed.

Lemma add_signed x y :
  signed false x → signed false y → signed false (F32.add x y).
Proof.
  destruct x as [sx | sx | | sx mx ex], y as [sy | sy | | sy my ey];
    simpl; try done; intros -> ->; try done.
  unfold F32.add, SFadd. simpl cond_Zopp.
  unfold binary_normalize. rewrite <- Pos2Z.inj_add.
  unfold binary_round.
  destruct (shl_align _ _ _) as [mz ez].
  apply round_aux_signed. lia.
Qed.

Lemma add_inf_l x y :
  x = S754_infinity false → signed false y → F32.add x y = S754_infinity false.
Proof. intros ->. by destruct y as [| [] | |]. Qed.

Lemma add_inf_r x y :
  signed false x → y = S754_infinity false → F32.add x y = S754_infinity false.
Proof. intros Hx ->. by destruct x as [| [] | |]. Qed.

Lemma mul_inf x : is_inf x = true → F32.mul x x = S754_infinity false.
Proof. by destruct x as [| [] | |]. Qed.

Lemma squared_length_inf v :
  is_nan (c0 v) = false → is_nan (c1 v) = false → is_nan (c2 v) = false →
  is_inf (c0 v) || is_inf (c1 v) || is_inf (c2 v) = true →
  squared_length v = S754_infinity false.
Proof.
  intros Hx Hy Hz Hinf. unfold squared_length.
  pose proof (mul_self_signed _ Hx). pose proof (mul_self_signed _ Hy).
  pose proof (mul_self_signed _ Hz).
  apply orb_true_iff in Hinf as [Hinf | Hiz].
  - apply add_inf_l; [| done]. apply orb_true_iff in Hinf as [Hix | Hiy].
    + apply add_inf_l; [by apply mul_inf | done].
    + apply add_inf_r; [done | by apply mul_inf].
  - apply add_inf_r; [by apply add_signed | by apply mul_inf].
Qed.

(** What dividing by an infinite length leaves of a component. *)
Definition lost (x r : float) : Prop :=
  if is_inf x then r = S754_nan else F32.is_zero r = true.

Lemma div_inf x :
  is_nan x = false → lost x (F32.div x (S754_infinity false)).
Proof. by destruct x. Qed.

(** X9.  A vector with a NaN component has a NaN length, which is not above
    [1e-8f]: [vec3_normalize] leaves the vector as it is, NaN included. *)
Theorem X9_normalize_nan (v : vec3) :
  is_nan (c0 v) || is_nan (c1 v) || is_nan (c2 v) = true →
  vec3_normalize v = v.
Proof.
  intros Hnan. rewrite vec3_normalize_length.
  by rewrite (squared_length_nan v Hnan).
Qed.

(** X10.  A vector with an infinite component and no NaN has the length
    +infinity, which is above [1e-8f]: [vec3_normalize] divides by it, which
    turns every infinite component into NaN and every other component into
    a zero. *)
Theorem X10_normalize_infinite (v : vec3) :
  is_nan (c0 v) = false → is_nan (c1 v) = false → is_nan (c2 v) = false →
  is_inf (c0 v) || is_inf (c1 v) || is_inf (c2 v) = true →
  lost (c0 v) (c0 (vec3_normalize v)) ∧
  lost (c1 v) (c1 (vec3_normalize v)) ∧
  lost (c2 v) (c2 (vec3_normalize v)).
Proof.
  intros Hx Hy Hz Hinf. rewrite vec3_normalize_length.
  rewrite (squared_length_inf v Hx Hy Hz Hinf).
  change (F32.sqrt (S754_infinity false)) with (S754_infinity false).
  cbv zeta.
  change (F32.gt (S754_infinity false) F32.eps) with true. cbv iota. simpl.
  auto using div_inf.
Qed.

(** * The caller: HelloMesh.cpp *)

Module HelloMesh.

Definition sizeof_float : Z := 4.
Definition sizeof_uint16 : Z := 2.

(** Products of [size_t] wrap at 2^64. *)
Definition size_mul (a b : Z) : Z := (a * b) mod 2 ^ 64.

(** Line 50. *)
Definition stride : Z := 4 + 3 + 2.

(** Line 55: the number printed as "vertices count". *)
Definition vertices_count (mesh : SphereMesh) : Z :=
  Z.of_nat (length (vertices mesh)) / stride.

(** Lines 56 and 71: "indices count" and [primitveCount]. *)
Definition indices_count (mesh : SphereMesh) : Z :=
  Z.of_nat (length (indices mesh)).

(** Lines 59-63: the three lines printed for the first vertex, labelled
    "pos", "normal" and "uv"; nothing is printed for an empty mesh, and
    reading past the end of the vector is undefined. *)
Definition first_vertex_lines (mesh : SphereMesh) : option (list (list float)) :=
  match vertices mesh with
  | [] => Some []
  | _ =>
      v0 ← vertices mesh !! 0%nat; v1 ← vertices mesh !! 1%nat;
      v2 ← vertices mesh !! 2%nat; v3 ← vertices mesh !! 3%nat;
      v4 ← vertices mesh !! 4%nat; v5 ← vertices mesh !! 5%nat;
      v6 ← vertices mesh !! 6%nat; v7 ← vertices mesh !! 7%nat;
      Some [[v0; v1; v2]; [v3; v4; v5]; [v6; v7]]
  end.

(** The bytes that [mesh.vertices.data()] points to. *)
Definition vertices_bytes (mesh : SphereMesh) : Z :=
  Z.of_nat (length (vertices mesh)) * sizeof_float.

(** Line 65: the byte count handed to [CreateBufferFromData] together with
    [mesh.vertices.data()]. *)
Definition vertexBuffer_size (mesh : SphereMesh) : Z :=
  size_mul (size_mul (Z.of_nat (length (vertices mesh))) stride) sizeof_float.

(** Line 68: the same for the index buffer. *)
Definition indexBuffer_size (mesh : SphereMesh) : Z :=
  size_mul (Z.of_nat (length (indices mesh))) sizeof_uint16.

(** Lines 124-140: the vertex buffer layout of the pipeline; offsets and the
    stride are in bytes, [components] is the width of the float format.
    Attribute 0 is left at the location and the offset 0 that the descriptor
    starts with. *)
Record Attribute := {
  shaderLocation : Z;
  offset : Z;
  components : nat;
}.

Definition arrayStride : Z := stride * sizeof_float.

Definition position_attribute : Attribute :=
  {| shaderLocation := 0; offset := 0; components := 4 |}.
Definition normal_attribute : Attribute :=
  {| shaderLocation := 1; offset := 4 * sizeof_float; components := 3 |}.
Definition uv_attribute : Attribute :=
  {| shaderLocation := 2; offset := (4 + 3) * sizeof_float; components := 2 |}.

(** What the vertex stage is handed for attribute [a] of vertex [k] from a
    buffer that holds the floats [vs]: the floats from byte
    [k * arrayStride + offset]. *)
Definition fetch (vs : list float) (a : Attribute) (k : Z) : list float :=
  take (components a)
    (drop (Z.to_nat ((k * arrayStride + offset a) / sizeof_float)) vs).

End HelloMesh.

Lemma record_at_split (vs : list float) k r :
  0 ≤ k → record_at vs k = r → length r = 9%nat →
  drop (Z.to_nat (9 * k)) vs = r ++ drop (Z.to_nat (9 * k + 9)) vs.
Proof.
  intros Hk Hrec Hlen. unfold record_at in Hrec.
  rewrite <- (take_drop 9 (drop (Z.to_nat (9 * k)) vs)) at 1.
  rewrite Hrec, drop_drop. do 2 f_equal. lia.
Qed.

Lemma create_record_split `{Platform}
    (radius : float) (widthSegments heightSegments : Z) (randomness : float) m :
  let w := Z.max 3 widthSegments in
  let h := Z.max 2 heightSegments in
  create radius widthSegments heightSegments randomness = Some m →
  ∀ k, 0 ≤ k < (w + 1) * (h + 1) →
    ∃ p u v rest,
      drop (Z.to_nat (9 * k)) (vertices m) =
      vertex_record p (vec3_normalize p) u (ring_uOffset w h (k / (w + 1))) v
        ++ rest.
Proof.
  intros w h Hm k Hk.
  destruct (clamp_bounds widthSegments heightSegments) as [Hw Hh].
  unfold clampW, clampH in *. fold w h in Hw, Hh.
  pose proof (Z.div_mod k (w + 1) ltac:(lia)) as Hdm.
  pose proof (Z.mod_pos_bound k (w + 1) ltac:(lia)) as Hmod.
  assert (0 ≤ k / (w + 1) ≤ h) as Hiy by nia.
  pose proof (create_stored _ _ _ _ m Hm (k / (w + 1)) (k `mod` (w + 1))
                Hiy ltac:(fold w; lia)) as Hrec.
  cbv zeta in Hrec. fold w h in Hrec.
  replace (k / (w + 1) * (w + 1) + k `mod` (w + 1)) with k in Hrec by lia.
  eexists _, _, _, _.
  apply record_at_split; [lia | exact Hrec | done].
Qed.

(** X11.  HelloMesh prints the right number of vertices, and then hands
    [CreateBufferFromData] the vertex array with nine times its size:
    [mesh.vertices.size() * stride * sizeof(float)] bytes, where the array
    holds [mesh.vertices.size() * sizeof(float)]. *)
Theorem X11_vertex_upload_size `{Platform}
    (radius : float) (widthSegments heightSegments : Z) (randomness : float) :
  let w := Z.max 3 widthSegments in
  let h := Z.max 2 heightSegments in
  match create radius widthSegments heightSegments randomness with
  | Some m =>
      HelloMesh.vertices_count m = (w + 1) * (h + 1) ∧
      HelloMesh.vertices_bytes m = 36 * ((w + 1) * (h + 1)) ∧
      HelloMesh.vertexBuffer_size m = 9 * HelloMesh.vertices_bytes m ∧
      HelloMesh.indexBuffer_size m = 2 * Z.of_nat (length (indices m))
  | None => INT_MAX < (w + 1) * (h + 1) * 8
  end.
Proof.
  intros w h. on_create m Hm Hc.
  destruct (clamp_bounds widthSegments heightSegments) as [Hw Hh].
  destruct Hc as (Hfit & _).
  unfold clampW, clampH, INT_MAX in *. fold w h in Hw, Hh, Hfit.
  pose proof (create_vertices_length _ _ _ _ m Hm) as Hlen.
  pose proof (create_indices_length _ _ _ _ m Hm) as Hilen.
  fold w h in Hlen, Hilen.
  unfold HelloMesh.vertices_count, HelloMesh.vertices_bytes,
    HelloMesh.vertexBuffer_size, HelloMesh.indexBuffer_size,
    HelloMesh.size_mul, HelloMesh.stride, HelloMesh.sizeof_float,
    HelloMesh.sizeof_uint16.
  rewrite Hlen, Hilen. change (4 + 3 + 2) with 9.
  change (2 ^ 64) with 18446744073709551616.
  assert (0 < (w + 1) * (h + 1)) as HN by nia.
  assert (0 ≤ (h - 1) * w ≤ (w + 1) * (h + 1)) as HT by nia.
  replace (2 * (h - 1) * w) with (2 * ((h - 1) * w)) by lia.
  set (N := (w + 1) * (h + 1)) in *. set (T := (h - 1) * w) in *.
  clearbody N T.
  repeat split.
  - rewrite Z.mul_comm. apply Z.div_mul. lia.
  - lia.
  - rewrite (Z.mod_small (9 * N * 9)) by lia. rewrite Z.mod_small by lia. lia.
  - rewrite Z.mod_small by lia. lia.
Qed.

(** X12.  The line that HelloMesh labels "first vertex normal" is read from
    floats 3 to 5 and the line labelled "first vertex uv" from floats 6 and
    7, the offsets of [SphereLayout]; in the buffer that [Sphere::create]
    fills these are the w component 1.0 followed by normal.x and normal.y,
    and normal.z followed by UV.u. *)
Theorem X12_first_vertex_lines `{Platform}
    (radius : float) (widthSegments heightSegments : Z) (randomness : float) :
  let w := Z.max 3 widthSegments in
  let h := Z.max 2 heightSegments in
  match create radius widthSegments heightSegments randomness with
  | Some m =>
      ∃ p u v,
        let n := vec3_normalize p in
        record_at (vertices m) 0 =
          [c0 p; c1 p; c2 p; F32.one; c0 n; c1 n; c2 n; u; v] ∧
        HelloMesh.first_vertex_lines m =
          Some [[c0 p; c1 p; c2 p]; [F32.one; c0 n; c1 n]; [c2 n; u]]
  | None => INT_MAX < (w + 1) * (h + 1) * 8
  end.
Proof.
  intros w h. on_create m Hm Hc.
  destruct (clamp_bounds widthSegments heightSegments) as [Hw Hh].
  unfold clampW, clampH in *. fold w h in Hw, Hh.
  destruct (create_record_split _ _ _ _ m Hm 0 ltac:(fold w h; nia))
    as (p & u & v & rest & Hsplit).
  change (drop (Z.to_nat (9 * 0)) (vertices m)) with (vertices m) in Hsplit.
  exists p, (F32.add u (ring_uOffset w h (0 / (w + 1)))), (F32.sub F32.one v).
  unfold record_at, HelloMesh.first_vertex_lines.
  change (drop (Z.to_nat (9 * 0)) (vertices m)) with (vertices m).
  fold w h in Hsplit. rewrite Hsplit. done.
Qed.

(** X13.  The vertex layout that HelloMesh gives the pipeline (stride of
    nine floats, attributes at floats 0, 4 and 7, of widths 4, 3 and 2)
    reads, for every vertex, the position with its w component, the normal
    and the texture coordinates that [Sphere::create] stored for it. *)
Theorem X13_pipeline_layout `{Platform}
    (radius : float) (widthSegments heightSegments : Z) (randomness : float) :
  let w := Z.max 3 widthSegments in
  let h := Z.max 2 heightSegments in
  match create radius widthSegments heightSegments randomness with
  | Some m =>
      ∀ k, 0 ≤ k < (w + 1) * (h + 1) →
        HelloMesh.fetch (vertices m) HelloMesh.position_attribute k =
          position_at (vertices m) k ++ [F32.one] ∧
        HelloMesh.fetch (vertices m) HelloMesh.normal_attribute k =
          normal_at (vertices m) k ∧
        HelloMesh.fetch (vertices m) HelloMesh.uv_attribute k =
          uv_at (vertices m) k
  | None => INT_MAX < (w + 1) * (h + 1) * 8
  end.
Proof.
  intros w h. on_create m Hm Hc. intros k Hk.
  destruct (create_record_split _ _ _ _ m Hm k Hk)
    as (p & u & v & rest & Hsplit).
  assert (∀ o, 0 ≤ o →
            drop (Z.to_nat ((k * HelloMesh.arrayStride + o * 4) / 4)) (vertices m)
            = drop (Z.to_nat o) (drop (Z.to_nat (9 * k)) (vertices m))) as Hdrop.
  { intros o Ho. rewrite drop_drop. f_equal.
    replace (k * HelloMesh.arrayStride + o * 4) with ((9 * k + o) * 4)
      by (unfold HelloMesh.arrayStride, HelloMesh.stride,
            HelloMesh.sizeof_float; lia).
    rewrite Z.div_mul by lia. lia. }
  unfold HelloMesh.fetch, position_at, normal_at, uv_at, record_at.
  unfold HelloMesh.position_attribute, HelloMesh.normal_attribute,
    HelloMesh.uv_attribute, HelloMesh.sizeof_float. simpl HelloMesh.offset.
  simpl HelloMesh.components.
  rewrite (Hdrop 4), (Hdrop (4 + 3)) by lia.
  replace (k * HelloMesh.arrayStride + 0) with (k * HelloMesh.arrayStride + 0 * 4)
    by lia.
  rewrite (Hdrop 0) by lia.
  rewrite Hsplit. done.
Qed.

(** * The layout that Sphere.h declares *)

Module SphereLayout.

Definition sizeof_float : Z := 4.

Definition vertexStride : Z := 8 * sizeof_float.
Definition positionsOffset : Z := 0.
Definition normalOffset : Z := 3 * sizeof_float.
Definition uvOffset : Z := 6 * sizeof_float.

(** The float at byte [b] of the data of a vector of floats. *)
Definition float_at (vs : list float) (b : Z) : option float :=
  vs !! Z.to_nat (b / sizeof_float).

End SphereLayout.

(** X15.  [SphereLayout] does not describe the buffer that [Sphere::create]
    fills: its stride of eight floats accounts for fewer bytes than the
    vertex array holds; at its [normalOffset] vertex 0 has the w component
    1.0, and at one stride from the start, where its vertex 1 would begin,
    lies the UV.v of vertex 0, which is 1.0. *)
Theorem X15_sphere_layout_stale `{Platform}
    (radius : float) (widthSegments heightSegments : Z) (randomness : float) :
  let w := Z.max 3 widthSegments in
  let h := Z.max 2 heightSegments in
  match create radius widthSegments heightSegments randomness with
  | Some m =>
      SphereLayout.vertexStride * ((w + 1) * (h + 1))
        < Z.of_nat (length (vertices m)) * SphereLayout.sizeof_float ∧
      SphereLayout.float_at (vertices m)
        (0 * SphereLayout.vertexStride + SphereLayout.normalOffset)
        = Some F32.one ∧
      SphereLayout.float_at (vertices m)
        (1 * SphereLayout.vertexStride + SphereLayout.positionsOffset)
        = Some F32.one
  | None => INT_MAX < (w + 1) * (h + 1) * 8
  end.
Proof.
  intros w h. on_create m Hm Hc.
  destruct (clamp_bounds widthSegments heightSegments) as [Hw Hh].
  destruct Hc as (Hfit & _).
  unfold clampW, clampH, INT_MAX in *. fold w h in Hw, Hh, Hfit.
  assert (1 ≤ h < 2 ^ 31) as Hh31.
  { change (2 ^ 31) with 2147483648. nia. }
  pose proof (create_vertices_length _ _ _ _ m Hm) as Hlen. fold w h in Hlen.
  pose proof (create_stored _ _ _ _ m Hm 0 0 ltac:(fold h; lia) ltac:(fold w; lia))
    as Hrec.
  cbv zeta in Hrec. fold w h in Hrec.
  apply record_at_split in Hrec; [| lia | done].
  change (drop (Z.to_nat (9 * (0 * (w + 1) + 0))) (vertices m))
    with (vertices m) in Hrec.
  unfold SphereLayout.float_at, SphereLayout.vertexStride,
    SphereLayout.normalOffset, SphereLayout.positionsOffset,
    SphereLayout.sizeof_float.
  split; [nia |].
  rewrite Hrec. unfold expected_record, vertex_record, ring_v.
  rewrite ratio_zero by done. done.
Qed.

(** * Finite inputs give finite positions *)

Lemma shl_align_value mx ex ez :
  ez ≤ ex → Z.pos (shl_align mx ex ez).1 = Z.pos mx * 2 ^ (ex - ez).
Proof.
  intros Hle. unfold shl_align.
  destruct (ez - ex) as [|d|d] eqn:Hd; simpl; try lia.
  - replace (ex - ez) with 0 by lia. lia.
  - rewrite shift_pos_value. do 2 f_equal. lia.
Qed.

Lemma scale_add a b e : scale (a + b) e = scale a e + scale b e.
Proof. unfold scale. lia. Qed.

Lemma scale_double k : -1000 ≤ k → scale 1 (k + 1) = 2 * scale 1 k.
Proof.
  intros Hk. unfold scale.
  replace (k + 1 + 1000) with (k + 1000 + 1) by lia.
  rewrite Z.pow_add_r by lia. lia.
Qed.

(** The sum of two floats of absolute value at most [2^k] is a float of
    absolute value at most [2^(k+1)]. *)
Lemma add_pow2 x y k :
  finite_le x 1 k → finite_le y 1 k → -149 ≤ k ≤ 103 →
  finite_le (SFadd F32.prec F32.emax x y) 1 (k + 1).
Proof.
  intros Hx Hy Hk.
  destruct x as [sx | | | sx mx ex], y as [sy | | | sy my ey]; try done.
  - by destruct sx, sy.
  - apply (finite_le_weaken _ k); [lia | done].
  - apply (finite_le_weaken _ k); [lia | done].
  - destruct Hx as [Hbx Hx1], Hy as [Hby Hy1].
    destruct (bounded_range mx ex Hbx) as (_ & Hex & _).
    destruct (bounded_range my ey Hby) as (_ & Hey & _).
    unfold SFadd.
    set (ez := Z.min ex ey).
    assert (scale (Z.pos (shl_align mx ex ez).1) ez = scale (Z.pos mx) ex) as Hax.
    { rewrite shl_align_value by lia.
      rewrite <- (scale_shift (Z.pos mx) ez (ex - ez)) by lia.
      f_equal. lia. }
    assert (scale (Z.pos (shl_align my ey ez).1) ez = scale (Z.pos my) ey) as Hay.
    { rewrite shl_align_value by lia.
      rewrite <- (scale_shift (Z.pos my) ez (ey - ez)) by lia.
      f_equal. lia. }
    set (ax := Z.pos (shl_align mx ex ez).1) in *.
    set (ay := Z.pos (shl_align my ey ez).1) in *.
    assert (0 < ax ∧ 0 < ay) as [Hax0 Hay0] by (unfold ax, ay; lia).
    assert (scale (ax + ay) ez ≤ scale 1 (k + 1)) as Hsum.
    { rewrite scale_add, Hax, Hay, scale_double by lia. lia. }
    clearbody ax ay.
    assert (∀ (s : bool) (p : positive), Z.pos p ≤ ax + ay →
              finite_le (binary_round F32.prec F32.emax s p ez) 1 (k + 1))
      as Hround.
    { intros s p Hp. apply (within_finite_le _ s).
      apply binary_round_cases; try lia.
      etrans; [apply (scale_le _ (ax + ay)); lia | done]. }
    unfold binary_normalize, fst in *.
    destruct (cond_Zopp sx ax + cond_Zopp sy ay) as [|p|p] eqn:Hs;
      [done | apply Hround | apply Hround];
      destruct sx, sy; simpl in Hs; lia.
Qed.

Lemma neg_finite_le x mb eb : finite_le x mb eb → finite_le (F32.neg x) mb eb.
Proof. by destruct x. Qed.

(** What [std::cos] and [std::sin] promise besides: a value of [-1, 1]. *)
Definition libm_unit `{Platform} : Prop :=
  ∀ x, F32.is_finite x = true →
       finite_le (cosf x) 1 0 ∧ finite_le (sinf x) 1 0.

(** Lines 59-63 on inputs of bounded size. *)
Lemma sphere_point_finite `{Platform} radius randomness d u v kR kr :
  libm_unit → draw_ok d →
  finite_le radius 1 kR → finite_le randomness 1 kr →
  0 ≤ kR → 0 ≤ kr → kR + kr ≤ 103 →
  F32.is_finite (F32.mul (F32.mul u F32.pi) F32.two) = true →
  F32.is_finite (F32.mul v F32.pi) = true →
  let p := sphere_point radius randomness d u v in
  finite_le (c0 p) 1 (kR + kr + 1) ∧ finite_le (c1 p) 1 (kR + kr + 1) ∧
  finite_le (c2 p) 1 (kR + kr + 1).
Proof.
  intros Hlibm Hd HR Hr HkR Hkr Hsum Hu Hv p.
  destruct (Hlibm _ Hu) as [Hcu Hsu]. destruct (Hlibm _ Hv) as [Hcv Hsv].
  assert (finite_le (F32.mul d F32.two) 1 (-1 + 1)) as Hd2.
  { apply (mul_pow2 d F32.two (-1) 1); [by apply draw_le_half | | lia ..].
    apply two_le. }
  assert (finite_le (F32.mul (F32.mul d F32.two) randomness) 1 (-1 + 1 + kr))
    as Hj by (apply mul_pow2; [done | done | lia ..]).
  assert (finite_le (F32.mul (F32.mul (F32.mul d F32.two) randomness) radius)
            1 (-1 + 1 + kr + kR))
    as Hjr by (apply mul_pow2; [done | done | lia ..]).
  assert (finite_le
            (F32.add radius
               (F32.mul (F32.mul (F32.mul d F32.two) randomness) radius))
            1 (kR + kr + 1)) as Hrr.
  { apply add_pow2; [| | lia].
    - apply (finite_le_weaken _ kR); [lia | done].
    - apply (finite_le_weaken _ (-1 + 1 + kr + kR)); [lia | done]. }
  unfold p, sphere_point. simpl c0. simpl c1. simpl c2.
  set (rr := F32.add radius _) in *.
  assert (∀ a b, finite_le a 1 (kR + kr + 1) → finite_le b 1 0 →
                 finite_le (F32.mul a b) 1 (kR + kr + 1)) as Hmul.
  { intros a b Ha Hb.
    pose proof (mul_pow2 a b (kR + kr + 1) 0 Ha Hb
                  ltac:(lia) ltac:(lia) ltac:(lia)) as Hab.
    by rewrite Z.add_0_r in Hab. }
  repeat split.
  - apply Hmul; [| done]. apply Hmul; [| done]. by apply neg_finite_le.
  - by apply Hmul.
  - apply Hmul; [| done]. by apply Hmul.
Qed.

(** X14.  With a radius of absolute value at most 2^kR and a randomness of
    absolute value at most 2^kr, where 0 <= kR, 0 <= kr and
    kR + kr <= 103, on a platform whose cosine and sine stay within [-1, 1]
    and whose draws stay within [-0.5, 0.5], every position coordinate of
    the mesh is a finite float of absolute value at most 2^(kR + kr + 1):
    no NaN and no infinity is stored as a position. *)
Theorem X14_positions_finite `{Platform}
    (radius : float) (widthSegments heightSegments : Z) (randomness : float)
    (kR kr : Z) :
  libm_unit → (∀ g, draw_ok (dist g).1) →
  finite_le radius 1 kR → finite_le randomness 1 kr →
  0 ≤ kR → 0 ≤ kr → kR + kr ≤ 103 →
  let w := Z.max 3 widthSegments in
  let h := Z.max 2 heightSegments in
  match create radius widthSegments heightSegments randomness with
  | Some m =>
      ∀ k, 0 ≤ k < (w + 1) * (h + 1) →
        Forall (λ x, F32.is_finite x = true ∧ finite_le x 1 (kR + kr + 1))
          (position_at (vertices m) k)
  | None => INT_MAX < (w + 1) * (h + 1) * 8
  end.
Proof.
  intros Hlibm Hdraw HR Hr HkR Hkr Hsum w h. on_create m Hm Hc. intros k Hk.
  destruct (clamp_bounds widthSegments heightSegments) as [Hw Hh].
  destruct Hc as (Hfit & _).
  unfold clampW, clampH, INT_MAX in *. fold w h in Hw, Hh, Hfit.
  assert (1 ≤ w < 2 ^ 31 ∧ 1 ≤ h < 2 ^ 31) as [Hw31 Hh31].
  { change (2 ^ 31) with 2147483648. nia. }
  pose proof (Z.div_mod k (w + 1) ltac:(lia)) as Hdm.
  pose proof (Z.mod_pos_bound k (w + 1) ltac:(lia)) as Hmod.
  set (iy := k / (w + 1)) in *. set (ix := k `mod` (w + 1)) in *.
  assert (0 ≤ iy ≤ h) as Hiy by nia.
  pose proof (create_stored _ _ _ _ m Hm iy ix Hiy ltac:(fold w; lia)) as Hrec.
  cbv zeta in Hrec. fold w h in Hrec.
  replace (iy * (w + 1) + ix) with k in Hrec by lia.
  unfold position_at. rewrite Hrec.
  assert (0 ≤ source_column w h iy ix ≤ w) as Hsx.
  { unfold source_column. case_decide; lia. }
  destruct (sphere_point_finite radius randomness
              (nth_draw (Z.to_nat (draw_of w h iy ix)))
              (column_u w (source_column w h iy ix)) (ring_v h iy) kR kr
              Hlibm (Hdraw _) HR Hr HkR Hkr Hsum)
    as (H0 & H1 & H2).
  { apply angle_u_finite; lia. }
  { apply angle_v_finite; lia. }
  unfold expected_record, vertex_record. simpl take. fold (point radius randomness w h iy ix).
  repeat constructor; try done; eapply finite_le_is_finite; eassumption.
Qed.

(** * Instances of the further properties *)

Lemma sample_libm_unit : libm_unit (H := Sample.platform).
Proof.
  intros x Hx. simpl. unfold Sample.cos_table, Sample.sin_table.
  rewrite Hx. split; repeat case_match; vm_compute;
    (done || (split; [done | discriminate])).
Qed.

Lemma X2_triangles_not_degenerate_witness :
  match create (H := Sample.platform) F32.one 4 2 F32.zero with
  | Some m =>
      (4 + 1) * (2 + 1) ≤ 65536 ∧
      Forall (λ '(a, b, c), a ≠ b ∧ b ≠ c ∧ a ≠ c) (triangles (indices m))
  | None => False
  end.
Proof.
  pose proof (X2_triangles_not_degenerate (H := Sample.platform)
                F32.one 4 2 F32.zero) as Hc.
  cbv zeta in Hc.
  destruct (create F32.one 4 2 F32.zero) as [m|].
  - split; [lia |]. destruct Hc as [_ Hc]. apply Hc. lia.
  - vm_compute in Hc. discriminate Hc.
Defined.

Lemma X3_referenced_vertices_witness :
  match create (H := Sample.platform) F32.one 4 2 F32.zero with
  | Some m =>
      (4 + 1) * (2 + 1) ≤ 65536 ∧
      (4 ∈ indices m ↔ 0 ≤ 4 < (4 + 1) * (2 + 1) ∧ 4 ≠ 4 ∧ 4 ≠ 2 * (4 + 1))
  | None => False
  end.
Proof.
  pose proof (X3_referenced_vertices (H := Sample.platform)
                F32.one 4 2 F32.zero) as Hc.
  cbv zeta in Hc.
  destruct (create F32.one 4 2 F32.zero) as [m|].
  - split; [lia |]. apply (Hc ltac:(lia) 4).
  - vm_compute in Hc. discriminate Hc.
Defined.

Lemma X4_truncation_degenerates_witness :
  match create (H := Sample.platform) F32.one 65535 2 F32.zero with
  | Some m =>
      (65535 + 1) mod 65536 = 0 ∧
      Forall (λ '(a, b, c), a = c ∨ a = b) (triangles (indices m))
  | None => False
  end.
Proof.
  pose proof (X4_truncation_degenerates (H := Sample.platform)
                F32.one 65535 2 F32.zero) as Hc.
  cbv zeta in Hc.
  destruct (create F32.one 65535 2 F32.zero) as [m|].
  - split; [reflexivity |]. apply Hc. reflexivity.
  - vm_compute in Hc. discriminate Hc.
Defined.

Lemma X5_positions_by_draw_witness :
  match create (H := Sample.platform) F32.one 4 2 F32.half with
  | Some m =>
      0 ≤ 1 ≤ 2 ∧ 0 ≤ 2 ≤ 4 ∧
      let p := sphere_point (H := Sample.platform) F32.one F32.half
                 (nth_draw (H := Sample.platform) 3)
                 (F32.div (F32.of_int 2) (F32.of_int 4))
                 (F32.div (F32.of_int 1) (F32.of_int 2)) in
      position_at (vertices m) (1 * (4 + 1) + 2) = [c0 p; c1 p; c2 p]
  | None => False
  end.
Proof.
  pose proof (X5_positions_by_draw (H := Sample.platform)
                F32.one 4 2 F32.half) as Hc.
  cbv zeta in Hc.
  destruct (create F32.one 4 2 F32.half) as [m|].
  - split; [lia |]. split; [lia |]. apply (Hc 1 2); lia.
  - vm_compute in Hc. discriminate Hc.
Defined.

Lemma X6_normal_of_position_witness :
  match create (H := Sample.platform) F32.one 4 2 F32.half with
  | Some m =>
      0 ≤ 7 < (4 + 1) * (2 + 1) ∧
      ∃ p, position_at (vertices m) 7 = [c0 p; c1 p; c2 p] ∧
           normal_at (vertices m) 7 =
             [c0 (vec3_normalize p); c1 (vec3_normalize p);
              c2 (vec3_normalize p)]
  | None => False
  end.
Proof.
  pose proof (X6_normal_of_position (H := Sample.platform)
                F32.one 4 2 F32.half) as Hc.
  cbv zeta in Hc.
  destruct (create F32.one 4 2 F32.half) as [m|].
  - split; [lia |]. apply (Hc 7). lia.
  - vm_compute in Hc. discriminate Hc.
Defined.

Lemma X7_randomness_zero_witness :
  (∀ g, draw_ok (dist (Platform := Sample.platform) g).1) ∧
  F32.is_zero F32.zero = true ∧
  F32.is_finite F32.two = true ∧ F32.is_zero F32.two = false ∧
  match create (H := Sample.platform) F32.two 4 2 F32.zero with
  | Some m =>
      0 ≤ 1 ≤ 2 ∧ 0 ≤ 1 ≤ 4 ∧
      let a := F32.mul (F32.mul (F32.div (F32.of_int 1) (F32.of_int 4))
                          F32.pi) F32.two in
      let b := F32.mul (F32.div (F32.of_int 1) (F32.of_int 2)) F32.pi in
      position_at (vertices m) (1 * (4 + 1) + 1) =
        [ F32.mul (F32.mul (F32.neg F32.two)
                     (cosf (Platform := Sample.platform) a))
            (sinf (Platform := Sample.platform) b);
          F32.mul F32.two (cosf (Platform := Sample.platform) b);
          F32.mul (F32.mul F32.two (sinf (Platform := Sample.platform) a))
            (sinf (Platform := Sample.platform) b) ]
  | None => False
  end.
Proof.
  split; [exact sample_draw_ok |].
  split; [reflexivity |]. split; [reflexivity |]. split; [reflexivity |].
  pose proof (X7_randomness_zero (H := Sample.platform) F32.two 4 2 F32.zero
                sample_draw_ok eq_refl eq_refl eq_refl) as Hc.
  cbv zeta in Hc.
  destruct (create F32.two 4 2 F32.zero) as [m|].
  - split; [lia |]. split; [lia |]. apply (Hc 1 1); lia.
  - vm_compute in Hc. discriminate Hc.
Defined.

Lemma X8_uv_corners_witness :
  match create (H := Sample.platform) F32.one 4 3 F32.half with
  | Some m =>
      0 ≤ 2 ≤ 4 ∧ 0 < 1 < 3 ∧
      (∃ u, uv_at (vertices m) (0 * (4 + 1) + 2) = [u; F32.one]) ∧
      (∃ u, uv_at (vertices m) (3 * (4 + 1) + 2) = [u; F32.zero]) ∧
      (∃ v, uv_at (vertices m) (1 * (4 + 1) + 0) = [F32.zero; v]) ∧
      (∃ v, uv_at (vertices m) (1 * (4 + 1) + 4) = [F32.one; v])
  | None => False
  end.
Proof.
  pose proof (X8_uv_corners (H := Sample.platform) F32.one 4 3 F32.half) as Hc.
  cbv zeta in Hc.
  destruct (create F32.one 4 3 F32.half) as [m|].
  - destruct Hc as [Hv Hu].
    split; [lia |]. split; [lia |].
    split; [apply (Hv 2); lia |]. split; [apply (Hv 2); lia |].
    split; [apply (Hu 1); lia | apply (Hu 1); lia].
  - vm_compute in Hc. discriminate Hc.
Defined.

Lemma X9_normalize_nan_witness :
  is_nan (c0 (Vec3 F32.one S754_nan F32.zero))
  || is_nan (c1 (Vec3 F32.one S754_nan F32.zero))
  || is_nan (c2 (Vec3 F32.one S754_nan F32.zero)) = true ∧
  vec3_normalize (Vec3 F32.one S754_nan F32.zero)
  = Vec3 F32.one S754_nan F32.zero.
Proof.
  split; [reflexivity |].
  apply (X9_normalize_nan (Vec3 F32.one S754_nan F32.zero)). reflexivity.
Defined.

Lemma X10_normalize_infinite_witness :
  let v := Vec3 (S754_infinity true) F32.one F32.zero in
  is_nan (c0 v) = false ∧ is_nan (c1 v) = false ∧ is_nan (c2 v) = false ∧
  is_inf (c0 v) || is_inf (c1 v) || is_inf (c2 v) = true ∧
  lost (c0 v) (c0 (vec3_normalize v)) ∧
  lost (c1 v) (c1 (vec3_normalize v)) ∧
  lost (c2 v) (c2 (vec3_normalize v)).
Proof.
  intros v.
  split; [reflexivity |]. split; [reflexivity |]. split; [reflexivity |].
  split; [reflexivity |].
  apply (X10_normalize_infinite v); reflexivity.
Defined.

Lemma X13_pipeline_layout_witness :
  match create (H := Sample.platform) F32.one 4 2 F32.half with
  | Some m =>
      0 ≤ 7 < (4 + 1) * (2 + 1) ∧
      HelloMesh.fetch (vertices m) HelloMesh.position_attribute 7 =
        position_at (vertices m) 7 ++ [F32.one] ∧
      HelloMesh.fetch (vertices m) HelloMesh.normal_attribute 7 =
        normal_at (vertices m) 7 ∧
      HelloMesh.fetch (vertices m) HelloMesh.uv_attribute 7 =
        uv_at (vertices m) 7
  | None => False
  end.
Proof.
  pose proof (X13_pipeline_layout (H := Sample.platform)
                F32.one 4 2 F32.half) as Hc.
  cbv zeta in Hc.
  destruct (create F32.one 4 2 F32.half) as [m|].
  - split; [lia |]. apply (Hc 7). lia.
  - vm_compute in Hc. discriminate Hc.
Defined.

Lemma X14_positions_finite_witness :
  libm_unit (H := Sample.platform) ∧
  (∀ g, draw_ok (dist (Platform := Sample.platform) g).1) ∧
  finite_le F32.two 1 1 ∧ finite_le F32.half 1 0 ∧
  0 ≤ 1 ∧ 0 ≤ 0 ∧ 1 + 0 ≤ 103 ∧
  match create (H := Sample.platform) F32.two 4 2 F32.half with
  | Some m =>
      0 ≤ 7 < (4 + 1) * (2 + 1) ∧
      Forall (λ x, F32.is_finite x = true ∧ finite_le x 1 (1 + 0 + 1))
        (position_at (vertices m) 7)
  | None => False
  end.
Proof.
  assert (finite_le F32.half 1 0) as Hhalf.
  { vm_compute. split; [done | discriminate]. }
  split; [exact sample_libm_unit |]. split; [exact sample_draw_ok |].
  split; [exact two_le |]. split; [exact Hhalf |].
  split; [lia |]. split; [lia |]. split; [lia |].
  pose proof (X14_positions_finite (H := Sample.platform)
                F32.two 4 2 F32.half 1 0
                sample_libm_unit sample_draw_ok two_le Hhalf
                ltac:(lia) ltac:(lia) ltac:(lia)) as Hc.
  cbv zeta in Hc.
  destruct (create F32.two 4 2 F32.half) as [m|].
  - split; [lia |]. apply (Hc 7). lia.
  - vm_compute in Hc. discriminate Hc.
Defined.

(** A second stand-in for the runtime: the same cosine, sine and numbers as
    [Sample.platform], from an engine that keeps its seed and counts its
    draws. *)
Module Counting.

Definition draw (g : Z * nat) : float * (Z * nat) :=
  (F32.lit ((g.1 + Z.of_nat g.2) mod 8 - 4) (-3), (g.1, S g.2)).

Definition platform : Platform :=
  {| rng_state := Z * nat;
     mt19937 := λ seed, (seed, 0%nat);
     dist := draw;
     cosf := Sample.cos_table;
     sinf := Sample.sin_table |}.

End Counting.

Lemma C5_determinism_witness :
  (∀ x, cosf (Platform := Sample.platform) x
        = cosf (Platform := Counting.platform) x) ∧
  (∀ x, sinf (Platform := Sample.platform) x
        = sinf (Platform := Counting.platform) x) ∧
  (∀ n : nat, Z.of_nat n < (2 - 1) * 4 + 2 →
     nth_draw (H := Sample.platform) n = nth_draw (H := Counting.platform) n) ∧
  match create (H := Sample.platform) F32.one 4 2 F32.half,
        create (H := Counting.platform) F32.one 4 2 F32.half with
  | Some m1, Some m2 => vertices m1 = vertices m2 ∧ indices m1 = indices m2
  | _, _ => False
  end.
Proof.
  assert (∀ n : nat, Z.of_nat n < (2 - 1) * 4 + 2 →
            nth_draw (H := Sample.platform) n
            = nth_draw (H := Counting.platform) n) as Hdraw.
  { intros n Hn. do 6 (destruct n as [|n]; [reflexivity |]). lia. }
  split; [reflexivity |]. split; [reflexivity |]. split; [exact Hdraw |].
  pose proof (C5_determinism Sample.platform Counting.platform
                F32.one 4 2 F32.half (λ x, eq_refl) (λ x, eq_refl) Hdraw) as Hc.
  cbv zeta in Hc.
  destruct (create (H := Sample.platform) F32.one 4 2 F32.half) as [m1|],
           (create (H := Counting.platform) F32.one 4 2 F32.half) as [m2|];
    try exact Hc.
  vm_compute in Hc. discriminate Hc.
Defined.
